(** * pullsAndImpacts: the impact table builder

    A shallow embedding of [scripts/combine/pullsAndImpacts.py]: the
    table that [readFitInfoFromFile] builds from the arrays of a fit
    result, and what [producePlots] does to it before plotting (merge
    with a reference table, sort key, sort, truncation); further on, the
    sort choices of [parseArgs], the number that [producePlots] reads
    from the name of a parameter of interest, the files that
    [writeOutput] writes, the change of the extension of the outfile,
    and the calls of [producePlots] that the script makes.

    - numbers are IEEE binary64 values, [spec_float] with the operations
      of the Standard Library's [SpecFloat] at precision 53;
    - a pandas [DataFrame] is its list of column names and its rows, a
      row being a dictionary from column name to cell;
    - a Python exception is the [Raise] branch of [result];
    - a Python string is the string of its characters; where a theorem
      depends on which characters count as digits, it is stated for
      names of ASCII characters;
    - the readers of the fit result, the translation dictionary and the
      regular expression engine are parameters of the development. *)

From Stdlib Require Import ZArith Ascii String List Sorted Permutation.
From Stdlib Require Import Floats.SpecFloat.
From stdpp Require Import gmap strings list fin_maps.

Local Open Scope string_scope.

(** ** Exceptions *)

Inductive error :=
  | KeyError (k : string)
  | ValueError
  | TypeError
  | AttributeError
  | ZeroDivisionError
  | NotImplementedError.

Inductive result (A : Type) :=
  | Ok (a : A)
  | Raise (e : error).
Arguments Ok {A} a.
Arguments Raise {A} e.

#[global] Instance result_ret : MRet result := fun _ a => Ok a.
#[global] Instance result_bind : MBind result := fun _ _ f m =>
  match m with
  | Ok a => f a
  | Raise e => Raise e
  end.


(** ** binary64 *)

Module F64.
Definition t := spec_float.
Definition prec : Z := 53.
Definition emax : Z := 1024.

Definition of_Z (z : Z) : t := binary_normalize prec emax z 0 false.
Definition mul : t -> t -> t := SFmul prec emax.
Definition sub : t -> t -> t := SFsub prec emax.
Definition div : t -> t -> t := SFdiv prec emax.
Definition sqrt : t -> t := SFsqrt prec emax.
Definition abs : t -> t := SFabs.
Definition ltb : t -> t -> bool := SFltb.
Definition leb : t -> t -> bool := SFleb.
Definition eqb : t -> t -> bool := SFeqb.

Definition zero : t := S754_zero false.
Definition one : t := Eval vm_compute in of_Z 1.
Definition half : t := Eval vm_compute in div (of_Z 1) (of_Z 2).

Definition is_nan (x : t) : bool :=
  match x with S754_nan => true | _ => false end.
Definition is_inf (x : t) : bool :=
  match x with S754_infinity _ => true | _ => false end.
Definition is_finite (x : t) : bool :=
  match x with S754_zero _ | S754_finite _ _ _ => true | _ => false end.
Definition is_zero (x : t) : bool :=
  match x with S754_zero _ => true | _ => false end.

(** [a > b ? a : b] and [a < b ? a : b], the reductions behind
    [max(axis=1)] and [min(axis=1)] on two columns without NaN. *)
Definition max (a b : t) : t := if ltb b a then a else b.
Definition min (a b : t) : t := if ltb a b then a else b.
End F64.

(** ** Python strings *)

Definition startswith (s p : string) : bool := String.prefix p s.

Definition endswith (s p : string) : bool :=
  String.prefix (String.rev p) (String.rev s).

(** [p in s] *)
Fixpoint str_in (p s : string) : bool :=
  String.prefix p s ||
  match s with
  | EmptyString => false
  | String _ s' => str_in p s'
  end.

(** [s.replace(old, new)].  For a non-empty [old]: every occurrence,
    left to right, occurrences not overlapping; [skip] counts the
    characters of the occurrence just replaced that are still to be
    passed.  For the empty [old]: [new] before every character and at
    the end. *)
Fixpoint replace_from (old new : string) (skip : nat) (s : string) : string :=
  match s with
  | EmptyString => EmptyString
  | String c s' =>
      match skip with
      | S k => replace_from old new k s'
      | O =>
          if String.prefix old s
          then new ++ replace_from old new (String.length old - 1) s'
          else String c (replace_from old new 0 s')
      end
  end.

Fixpoint intersperse (new s : string) : string :=
  match s with
  | EmptyString => new
  | String c s' => new ++ String c (intersperse new s')
  end.

Definition str_replace (s old new : string) : string :=
  match old with
  | EmptyString => intersperse new s
  | String _ _ => replace_from old new 0 s
  end.

(** [s.split(c)] for a one-character separator. *)
Fixpoint str_split (c : ascii) (s : string) : list string :=
  match s with
  | EmptyString => [EmptyString]
  | String a s' =>
      if Ascii.eqb a c then EmptyString :: str_split c s'
      else match str_split c s' with
           | h :: tl => String a h :: tl
           | [] => [String a EmptyString]
           end
  end.

(** [s.split("_")[-1]] *)
Definition last_field (s : string) : string :=
  List.last (str_split "_"%char s) EmptyString.

(** Truth value of a string or [None]. *)
Definition truthy (o : option string) : bool :=
  match o with
  | Some (String _ _) => true
  | _ => false
  end.

(** ** Cells and frames *)

(** A cell holds a float or a string; the missing value of pandas is the
    float NaN in columns of either kind. *)
Inductive cell :=
  | Num (x : F64.t)
  | Str (s : string).

#[global] Instance cell_inhabited : Inhabited cell := populate (Num S754_nan).

Definition nan : cell := Num S754_nan.

Definition isna (c : cell) : bool :=
  match c with
  | Num S754_nan => true
  | _ => false
  end.

Definition is_str (c : cell) : bool :=
  match c with
  | Str _ => true
  | Num _ => false
  end.

(** The dtype that pandas gives a column set from a list: [object]
    where the list holds a string, [float64] where it holds numbers only
    and where it is empty. *)
Definition object_dtype (vals : list cell) : bool := existsb is_str vals.

(** [series.str]: the accessor is there for a column of dtype [object]
    and refused, with [AttributeError], for a column of dtype [float64],
    the empty one included. *)
Definition str_accessor (vals : list cell) : result (list cell) :=
  if object_dtype vals then Ok vals else Raise AttributeError.

Record DataFrame := mkDF {
  columns : list string;
  rows : list (gmap string cell)
}.

Definition inb (c : string) (l : list string) : bool :=
  existsb (String.eqb c) l.

Definition add_column (c : string) (cols : list string) : list string :=
  if inb c cols then cols else cols ++ [c].

(** [pd.DataFrame(values, columns=[c])] *)
Definition frame_of_column (c : string) (vals : list cell) : DataFrame :=
  mkDF [c] (map (fun v => {[ c := v ]}) vals).

(** [df[c]] *)
Definition get_col (c : string) (df : DataFrame) : result (list cell) :=
  if inb c (columns df)
  then mapM (fun r : gmap string cell =>
               match r !! c with
               | Some v => Ok v
               | None => Raise (KeyError c)
               end) (rows df)
  else Raise (KeyError c).

(** [df[c] = vals] for a list or an array [vals]: the lengths have to
    agree. *)
Definition set_col (c : string) (vals : list cell) (df : DataFrame)
  : result DataFrame :=
  if Nat.eqb (length vals) (length (rows df))
  then Ok (mkDF (add_column c (columns df))
                (zip_with (fun r v => <[c := v]> r) (rows df) vals))
  else Raise ValueError.

(** Elementwise operations on columns. *)
Definition num1 (f : F64.t -> F64.t) (c : cell) : result cell :=
  match c with
  | Num x => Ok (Num (f x))
  | Str _ => Raise TypeError
  end.

Definition num2 (f : F64.t -> F64.t -> F64.t) (a b : cell) : result cell :=
  match a, b with
  | Num x, Num y => Ok (Num (f x y))
  | _, _ => Raise TypeError
  end.

Definition col_map (f : F64.t -> F64.t) (l : list cell) : result (list cell) :=
  mapM (num1 f) l.

Definition col_zip (f : F64.t -> F64.t -> F64.t) (l1 l2 : list cell)
  : result (list cell) :=
  mapM (fun p => num2 f (fst p) (snd p)) (zip l1 l2).

(** [series.replace([np.inf, -np.inf, np.nan], 999)] on one cell. *)
Definition sentinel : F64.t := Eval vm_compute in F64.of_Z 999.

Definition replace_inf_nan (c : cell) : cell :=
  match c with
  | Num (S754_infinity _) | Num S754_nan => Num sentinel
  | _ => c
  end.

(** [df.drop(df.loc[mask].index)]: the rows where the mask holds go. *)
Definition drop_mask (mask : list bool) (rs : list (gmap string cell))
  : list (gmap string cell) :=
  map fst (List.filter (fun p => negb (snd p)) (zip rs mask)).

Definition blue : string := "#377eb8".
Definition red : string := "#e41a1c".

Definition nonempty {A} (l : list A) : bool :=
  match l with
  | [] => false
  | _ :: _ => true
  end.

(** ** The builder *)

Section Builder.

(** The fit result file and its readers ([combinetf_input]), the
    regular expressions of [re] and [str.contains], and the module
    level dictionary [translate_label]. *)
Variable fitresult : Type.
Variable read_impacts_poi :
  fitresult -> bool -> bool -> F64.t -> option string -> bool ->
  list F64.t * list string.
Variable get_pulls_and_constraints :
  string -> list string -> list F64.t * list F64.t * list F64.t.
Variable re_match : string -> string -> bool.
Variable re_search : string -> string -> bool.
Variable translate_label : gmap string string.

(** [translate_label.get(l, l)] *)
Definition translate (l : string) : string :=
  default l (translate_label !! l).

(** [group and grouping] *)
Definition grouping_active (group : bool) (grouping : option (list string))
  : bool :=
  group && match grouping with
           | Some g => nonempty g
           | None => false
           end.

(** The body of the selection loop of lines 272-278: [false] where the
    loop takes a [continue]. *)
Definition selected (group : bool) (grouping : option (list string))
    (filters : list string) (label : string) : bool :=
  if grouping_active group grouping
     && negb (inb label (default [] grouping))
  then false
  else if nonempty filters
          && negb (existsb (fun f => re_match f label) filters)
  then false
  else true.

Definition select_entries (group : bool) (grouping : option (list string))
    (filters : list string) (impacts : list F64.t) (labels : list string)
  : list F64.t * list string :=
  if grouping_active group grouping || nonempty filters
  then let kept := List.filter (fun p => selected group grouping filters (snd p))
                          (zip impacts labels) in
       (map fst kept, map snd kept)
  else (impacts, labels).

(** [.str.contains(pat, regex=True)] on one cell of a column of dtype
    [object], the result being used as a mask: a cell that is no string
    gives a missing value, which [df.loc] refuses. *)
Definition str_contains (pat : string) (c : cell) : result bool :=
  match c with
  | Str s => Ok (re_search pat s)
  | Num _ => Raise ValueError
  end.

Definition positive_color (c : cell) : result cell :=
  match c with
  | Num x => Ok (Str (if F64.ltb F64.zero x then red else blue))
  | Str _ => Raise TypeError
  end.

(** Lines 286-292, the columns of the ungrouped table.  [x**2] and
    [x**0.5] on a float column are numpy's [square] and [sqrt].  The
    label column is the one that line 283 has set from a list, of
    strings unless the list is empty: on a table without rows line 292
    ends in [AttributeError]. *)
Definition add_pulls (filename : string) (poi : option string)
    (labels : list string) (df : DataFrame) : result DataFrame :=
  let '(pulls, constraints, prefit) :=
    get_pulls_and_constraints filename labels in
  df ← set_col "pull" (map Num pulls) df;
  df ← set_col "constraint" (map Num constraints) df;
  df ← set_col "pull_prefit" (map Num prefit) df;
  pull ← get_col "pull" df;
  pre ← get_col "pull_prefit" df;
  diff ← col_zip F64.sub pull pre;
  df ← set_col "pull" diff df;
  pull ← get_col "pull" df;
  apull ← col_map F64.abs pull;
  df ← set_col "abspull" apull df;
  pull ← get_col "pull" df;
  con ← get_col "constraint" df;
  sq ← col_map (fun c => F64.mul c c) con;
  om ← col_map (fun x => F64.sub F64.one x) sq;
  rt ← col_map F64.sqrt om;
  newpull ← col_zip F64.div pull rt;
  df ← set_col "newpull" newpull df;
  newpull ← get_col "newpull" df;
  df ← set_col "newpull" (map replace_inf_nan newpull) df;
  if truthy poi
  then lab ← get_col "label" df;
       lab ← str_accessor lab;
       mask ← mapM (str_contains (str_replace (default "" poi) "_noi" "")) lab;
       Ok (mkDF (columns df) (drop_mask mask (rows df)))
  else Ok df.

Definition readFitInfoFromFile (rf : fitresult) (filename : string)
    (poi : option string) (group : bool) (grouping : option (list string))
    (filters : list string) (stat : F64.t) (normalize : bool)
    (scale : F64.t) : result DataFrame :=
  let '(impacts, labels) :=
    read_impacts_poi rf group group stat poi normalize in
  let '(impacts, labels) :=
    select_entries group grouping filters impacts labels in
  let df := frame_of_column "impact"
              (map (fun x => Num (F64.mul x scale)) impacts) in
  df ← set_col "label" (map (fun l => Str (translate l)) labels) df;
  imp ← get_col "impact" df;
  aimp ← col_map F64.abs imp;
  df ← set_col "absimpact" aimp df;
  df ← (if group then Ok df else add_pulls filename poi labels df);
  imp ← get_col "impact" df;
  colors ← (if group
            then Ok (map (fun _ => Str blue) (rows df))
            else mapM positive_color imp);
  set_col "impact_color" colors df.

(** *** Merge with the reference table (lines 394-401) *)

(** The union of the keys of an outer join, sorted and without
    repetition. *)
Fixpoint insert_key (k : string) (ks : list string) : list string :=
  match ks with
  | [] => [k]
  | k' :: ks' =>
      match String.compare k k' with
      | Lt => k :: ks
      | Eq => ks
      | Gt => k' :: insert_key k ks'
      end
  end.

Definition sorted_keys (ks : list string) : list string :=
  foldr insert_key [] ks.

Definition as_str (c : cell) : result string :=
  match c with
  | Str s => Ok s
  | Num _ => Raise TypeError
  end.

Definition has_key (on k : string) (r : gmap string cell) : bool :=
  match r !! on with
  | Some (Str s) => String.eqb s k
  | _ => false
  end.

(** A column of the right table keeps its name unless the left table
    has a column of that name: then it takes the suffix. *)
Definition suffixed (lcols : list string) (suffix c : string) : string :=
  if inb c lcols then c ++ suffix else c.

Definition rename_right (on suffix : string) (lcols rcols : list string)
    (r : gmap string cell) : gmap string cell :=
  foldr (fun c acc =>
           if String.eqb c on then acc
           else match r !! c with
                | Some v => <[suffixed lcols suffix c := v]> acc
                | None => acc
                end) ∅ rcols.

Definition nan_row (cols : list string) : gmap string cell :=
  foldr (fun c acc => <[c := nan]> acc) ∅ cols.

(** The rows of one side that carry a key, or one missing row. *)
Definition pad {A} (l : list A) : list (option A) :=
  match l with
  | [] => [None]
  | _ :: _ => map Some l
  end.

Definition join_rows (on k : string) (lnan rnan : gmap string cell)
    (l r : option (gmap string cell)) : gmap string cell :=
  <[on := Str k]> (default lnan l ∪ default rnan r).

(** [left.merge(right, how="outer", on=on, suffixes=("", suffix))] for
    key columns of strings. *)
Definition merge_outer (on suffix : string) (left right : DataFrame)
  : result DataFrame :=
  lk ← get_col on left;
  lk ← mapM as_str lk;
  rk ← get_col on right;
  rk ← mapM as_str rk;
  let others := List.filter (fun c => negb (String.eqb c on)) (columns right) in
  let rcols := map (suffixed (columns left) suffix) others in
  let lnan := nan_row (columns left) in
  let rnan := nan_row rcols in
  let ren := rename_right on suffix (columns left) (columns right) in
  Ok (mkDF (columns left ++ rcols)
        (flat_map
           (fun k =>
              flat_map
                (fun l =>
                   map (fun r => join_rows on k lnan rnan l (ren <$> r))
                       (pad (List.filter (has_key on k) (rows right))))
                (pad (List.filter (has_key on k) (rows left))))
           (sorted_keys (lk ++ rk)))).

(** [default_values.get(col, 0)] *)
Definition default_value (col : string) : cell :=
  if inb col ["impact_color"; "impact_color_ref"]
  then Str blue else Num F64.zero.

Definition fillna (d : cell) (v : cell) : cell :=
  if isna v then d else v.

(** [df[c] = df[c].fillna(d)] *)
Definition fillna_col (c : string) (d : cell) (df : DataFrame)
  : result DataFrame :=
  vals ← get_col c df;
  set_col c (map (fillna d) vals) df.

(** The loop over [df.columns] of lines 400-401. *)
Fixpoint fill_columns (cols : list string) (df : DataFrame)
  : result DataFrame :=
  match cols with
  | [] => Ok df
  | c :: cs => df ← fillna_col c (default_value c) df; fill_columns cs df
  end.

(** Lines 396-401: the join and the default values. *)
Definition merge_reference (df df_ref : DataFrame) : result DataFrame :=
  df ← merge_outer "label" "_ref" df df_ref;
  fill_columns (columns df) df.

(** [df.fillna(0)] *)
Definition fillna0 (df : DataFrame) : DataFrame :=
  mkDF (columns df) (map (fmap (fillna (Num F64.zero))) (rows df)).

(** *** Sort key and sort (lines 403-416) *)

(** [max] and [min] over the two columns of a row; a missing value is
    skipped. *)
Definition row_pick (pick : F64.t -> F64.t -> F64.t) (a b : F64.t) : F64.t :=
  if F64.is_nan a then b else if F64.is_nan b then a else pick a b.

Definition add_sort_key (sort : string) (ascending : bool) (df : DataFrame)
  : result DataFrame :=
  if endswith sort "diff" then
    let key := str_replace sort "_diff" "" in
    cur ← get_col key df;
    ref ← get_col (key ++ "_ref") df;
    diff ← col_zip F64.sub cur ref;
    adiff ← col_map F64.abs diff;
    set_col (key ++ "_diff") adiff df
  else if endswith sort "both" then
    let key := str_replace sort "_both" "" in
    cur ← get_col key df;
    ref ← get_col (key ++ "_ref") df;
    both ← col_zip (row_pick (if ascending then F64.max else F64.min)) cur ref;
    set_col (key ++ "_both") both df
  else Ok df.

(** The order of the cells of one column; cells of different kinds are
    not compared by [sort_values], the order between them is there to
    make [cell_leb] total. *)
Definition cell_leb (a b : cell) : bool :=
  match a, b with
  | Num x, Num y => F64.leb x y
  | Str s, Str t => String.leb s t
  | Num _, Str _ => true
  | Str _, Num _ => false
  end.

(** Missing values go last in either direction. *)
Definition key_leb (ascending : bool) (a b : cell) : bool :=
  if isna b then true
  else if isna a then false
  else if ascending then cell_leb a b else cell_leb b a.

Fixpoint insert_sorted {A} (leb : A -> A -> bool) (x : A) (l : list A)
  : list A :=
  match l with
  | [] => [x]
  | y :: l' => if leb x y then x :: l else y :: insert_sorted leb x l'
  end.

Definition isort {A} (leb : A -> A -> bool) (l : list A) : list A :=
  foldr (insert_sorted leb) [] l.

Definition is_num (c : cell) : bool :=
  match c with Num _ => true | Str _ => false end.

Definition is_str_or_na (c : cell) : bool :=
  match c with Str _ => true | Num x => F64.is_nan x end.

Definition homogeneous (vals : list cell) : bool :=
  forallb is_num vals || forallb is_str_or_na vals.

Definition row_key (by_ : string) (r : gmap string cell) : cell :=
  default nan (r !! by_).

Definition row_leb (by_ : string) (ascending : bool)
    (r1 r2 : gmap string cell) : bool :=
  key_leb ascending (row_key by_ r1) (row_key by_ r2).

(** [df.sort_values(by=by_, ascending=ascending)].  The order of rows
    with equal keys is the sorting algorithm's, and the default
    algorithm of pandas does not promise any; here they keep their
    relative order, and the theorems use only that the result is a
    permutation in the order of the keys. *)
Definition sort_values (by_ : string) (ascending : bool) (df : DataFrame)
  : result DataFrame :=
  keys ← get_col by_ df;
  if homogeneous keys
  then Ok (mkDF (columns df) (isort (row_leb by_ ascending) (rows df)))
  else Raise TypeError.

(** *** Truncation (lines 471-479) *)

(** Where the slice [l[start:]] begins. *)
Definition slice_start (start : Z) (len : nat) : nat :=
  Z.to_nat (if (start <? 0)%Z then Z.max (start + Z.of_nat len) 0
            else Z.min start (Z.of_nat len)).

(** [l[-n:]] *)
Definition py_tail {A} (n : Z) (l : list A) : list A :=
  drop (slice_start (- n) (length l)) l.

(** [df.size] *)
Definition df_size (df : DataFrame) : Z :=
  Z.of_nat (length (rows df) * length (columns df)).

(** [if args.num and args.num < df.size: df = df[-args.num:]] *)
Definition truncate (num : option Z) (df : DataFrame) : DataFrame :=
  match num with
  | Some n =>
      if negb (n =? 0)%Z && (n <? df_size df)%Z
      then mkDF (columns df) (py_tail n (rows df))
      else df
  | None => df
  end.

(** *** [producePlots] *)

(** The luminosity of a channel, a float of the meta data. *)
Record channel := { lumi : F64.t }.

(** [1./x] for a Python float [x]. *)
Definition py_reciprocal (x : F64.t) : result F64.t :=
  if F64.is_zero x then Raise ZeroDivisionError
  else Ok (F64.div F64.one x).

Record Args := {
  inputFile : string;
  referenceFile : string;
  sort : string;
  stat : F64.t;
  ascending : bool;
  output_mode : option string;
  num : option Z
}.

(** [conversion_tools.combine_channels(meta, True)] of the meta data of
    a fit result, and the number read from a name with ["MeV"] in it,
    [float(re.findall(r'\d+', poi.split("MeV")[0].replace("p","."))[-1])]. *)
Variable channel_info : fitresult -> gmap string channel.
Variable mev_value : string -> result F64.t.

Definition poi_type (poi : option string) : option string :=
  if truthy poi then last_field <$> poi else None.

Definition in_types (t : option string) (l : list string) : bool :=
  match t with
  | Some s => inb s l
  | None => false
  end.

Definition poi_startswith (poi : option string) (p : string) : bool :=
  truthy poi && startswith (default "" poi) p.

(** Lines 349-387 as far as the scale goes; the axis title chosen along
    the way is left out. *)
Definition poi_scale (fr : fitresult) (poi : option string) : result F64.t :=
  scale ← match poi with
           | Some p =>
               if str_in "MeV" p
               then v ← mev_value p;
                    Ok (if str_in "Diff" p then F64.mul v (F64.of_Z 2) else v)
               else Ok F64.one
           | None => Ok F64.one
           end;
  if poi_startswith poi "massShift" then Ok scale
  else if poi_startswith poi "massDiff" then Ok scale
  else if poi_startswith poi "width" then Ok scale
  else if in_types (poi_type poi)
            ["pmaskedexp"; "pmaskedexpnorm"; "sumxsec"; "sumxsecnorm"]
  then
    if in_types (poi_type poi) ["pmaskedexp"; "sumxsec"]
    then
      let info := channel_info fr in
      lumi ← (if Nat.eqb (size info) 1
              then match info !! "chan_13TeV" with
                   | Some ch => Ok (lumi ch)
                   | None => Raise (KeyError "chan_13TeV")
                   end
              else Raise NotImplementedError);
      py_reciprocal (F64.mul lumi (F64.of_Z 1000))
    else Ok scale
  else if in_types (poi_type poi) ["ratiometaratio"]
  then Ok (F64.of_Z 1000)
  else Ok scale.

Definition is_mode (args : Args) (m : string) : bool :=
  match output_mode args with
  | Some s => String.eqb s m
  | None => false
  end.

(** Lines 389-418: the table before it is plotted. *)
Definition build_table (fr : fitresult) (args : Args) (poi : option string)
    (group normalize : bool) (fr_ref : option fitresult)
    (grouping : option (list string)) (scale : F64.t) : result DataFrame :=
  let stat100 := F64.div (stat args) (F64.of_Z 100) in
  df ← (if negb (group && is_mode args "output")
        then readFitInfoFromFile fr (inputFile args) poi false None []
               stat100 normalize scale
        else readFitInfoFromFile fr (inputFile args) poi true grouping []
               stat100 normalize scale);
  df ← match fr_ref with
       | Some ref =>
           df_ref ← readFitInfoFromFile ref (referenceFile args) poi group
                      grouping [] stat100 normalize scale;
           merge_reference df df_ref
       | None => Ok df
       end;
  df ← (if nonempty (list_ascii_of_string (sort args))
        then df ← add_sort_key (sort args) (ascending args) df;
             sort_values (sort args) (ascending args) df
        else Ok df);
  Ok (fillna0 df).

(** The table handed to [plotImpacts]: none in interactive mode, where
    the server is started instead. *)
Definition producePlots (fr : fitresult) (args : Args) (poi : option string)
    (group normalize : bool) (fr_ref : option fitresult)
    (grouping : option (list string)) : result (option DataFrame) :=
  scale ← poi_scale fr poi;
  df ← build_table fr args poi group normalize fr_ref grouping scale;
  if is_mode args "interactive" then Ok None
  else if is_mode args "output" then Ok (Some (truncate (num args) df))
  else Raise ValueError.

End Builder.

(** ** The entries behind a table

    One [entry] holds what the readers give for one nuisance parameter
    (or group): the raw impact, the raw label and, in ungrouped mode, the
    pull, the constraint and the prefit pull. *)

Record entry := {
  e_impact : F64.t;
  e_label : string;
  e_pull : F64.t;
  e_constraint : F64.t;
  e_prefit : F64.t
}.

Definition mk_entries (impacts : list F64.t) (labels : list string)
    (pulls constraints prefit : list F64.t) : list entry :=
  zip_with (fun il pcp =>
              Build_entry (fst il) (snd il) (fst (fst pcp)) (snd (fst pcp))
                          (snd pcp))
           (zip impacts labels) (zip (zip pulls constraints) prefit).

(** [pull], the quotient behind [newpull], and the stored [newpull]. *)
Definition pull_of (e : entry) : F64.t := F64.sub (e_pull e) (e_prefit e).

Definition quotient_of (e : entry) : F64.t :=
  F64.div (pull_of e)
          (F64.sqrt (F64.sub F64.one
                       (F64.mul (e_constraint e) (e_constraint e)))).

Definition newpull_of (e : entry) : F64.t :=
  if F64.is_inf (quotient_of e) || F64.is_nan (quotient_of e)
  then sentinel else quotient_of e.

Definition color_of (x : F64.t) : string :=
  if F64.ltb F64.zero x then red else blue.

Definition grouped_columns : list string :=
  ["impact"; "label"; "absimpact"; "impact_color"].

Definition ungrouped_columns : list string :=
  ["impact"; "label"; "absimpact"; "pull"; "constraint"; "pull_prefit";
   "abspull"; "newpull"; "impact_color"].

Definition table_columns (group : bool) : list string :=
  if group then grouped_columns else ungrouped_columns.

Section Rows.
Variable translate_label : gmap string string.
Variable scale : F64.t.

Definition grouped_row (e : entry) : gmap string cell :=
  <["impact_color" := Str blue]>
    (<["absimpact" := Num (F64.abs (F64.mul (e_impact e) scale))]>
       (<["label" := Str (translate translate_label (e_label e))]>
          {["impact" := Num (F64.mul (e_impact e) scale)]})).

Definition ungrouped_row (e : entry) : gmap string cell :=
  <["impact_color" := Str (color_of (F64.mul (e_impact e) scale))]>
    (<["newpull" := Num (newpull_of e)]>
       (<["abspull" := Num (F64.abs (pull_of e))]>
          (<["pull_prefit" := Num (e_prefit e)]>
             (<["constraint" := Num (e_constraint e)]>
                (<["pull" := Num (pull_of e)]>
                   (<["absimpact" := Num (F64.abs (F64.mul (e_impact e) scale))]>
                      (<["label" := Str (translate translate_label (e_label e))]>
                         {["impact" := Num (F64.mul (e_impact e) scale)]}))))))).

Definition table_row (group : bool) (e : entry) : gmap string cell :=
  if group then grouped_row e else ungrouped_row e.
End Rows.

Section Entries.
Variable fitresult : Type.
Variable read_impacts_poi :
  fitresult -> bool -> bool -> F64.t -> option string -> bool ->
  list F64.t * list string.
Variable get_pulls_and_constraints :
  string -> list string -> list F64.t * list F64.t * list F64.t.
Variable re_match : string -> string -> bool.
Variable re_search : string -> string -> bool.
Variable translate_label : gmap string string.

(** The entries that pass the selection of lines 269-280, with the
    pulls read for them. *)
Definition selected_entries (rf : fitresult) (filename : string)
    (poi : option string) (group : bool) (grouping : option (list string))
    (filters : list string) (stat : F64.t) (normalize : bool) : list entry :=
  let '(impacts, labels) :=
    read_impacts_poi rf group group stat poi normalize in
  let kept := List.filter
                (fun p => selected re_match group grouping filters (snd p))
                (zip impacts labels) in
  let '(pulls, constraints, prefit) :=
    if group
    then (map (fun _ => F64.zero) kept, map (fun _ => F64.zero) kept,
          map (fun _ => F64.zero) kept)
    else get_pulls_and_constraints filename (map snd kept) in
  mk_entries (map fst kept) (map snd kept) pulls constraints prefit.

(** Whether line 292 drops the row of an entry. *)
Definition poi_dropped (poi : option string) (group : bool) (e : entry)
  : bool :=
  negb group && truthy poi &&
  re_search (str_replace (default "" poi) "_noi" "")
            (translate translate_label (e_label e)).

(** Whether the entry of a raw label has a row in the table. *)
Definition retained (poi : option string) (group : bool)
    (grouping : option (list string)) (filters : list string)
    (label : string) : bool :=
  selected re_match group grouping filters label &&
  negb (negb group && truthy poi &&
        re_search (str_replace (default "" poi) "_noi" "")
                  (translate translate_label label)).

Definition table_entries (rf : fitresult) (filename : string)
    (poi : option string) (group : bool) (grouping : option (list string))
    (filters : list string) (stat : F64.t) (normalize : bool) : list entry :=
  List.filter (fun e => negb (poi_dropped poi group e))
              (selected_entries rf filename poi group grouping filters
                                stat normalize).

(** Whether [readFitInfoFromFile] gets past line 292: the line is run
    in ungrouped mode with a parameter of interest, and finds strings in
    the label column when at least one label has passed the selection. *)
Definition labels_read (rf : fitresult) (poi : option string) (group : bool)
    (grouping : option (list string)) (filters : list string) (stat : F64.t)
    (normalize : bool) : bool :=
  group || negb (truthy poi) ||
  existsb (selected re_match group grouping filters)
          (snd (read_impacts_poi rf group group stat poi normalize)).

(** The same for the calls of lines 389-395: the table of the fit
    result, then that of the reference. *)
Definition tables_read (rf : fitresult) (args : Args) (poi : option string)
    (group normalize : bool) (fr_ref : option fitresult)
    (grouping : option (list string)) : bool :=
  let stat100 := F64.div (stat args) (F64.of_Z 100) in
  (if negb (group && is_mode args "output")
   then labels_read rf poi false None [] stat100 normalize
   else labels_read rf poi true grouping [] stat100 normalize)
  && match fr_ref with
     | Some ref => labels_read ref poi group grouping [] stat100 normalize
     | None => true
     end.
End Entries.

(** ** The command line

    [parseArgs]: the values that [--sort] accepts (lines 301-305). *)

Definition sort_choices : list string :=
  let sort_choices := ["label"; "pull"; "abspull"; "constraint"; "absimpact"] in
  sort_choices ++
  (map (fun c => c ++ "_diff") sort_choices ++
   map (fun c => c ++ "_ref") sort_choices ++
   map (fun c => c ++ "_both") sort_choices).

(** ** A sample fit result

    A fit result given by its list of impacts and labels, with readers in
    the shape of those of [combinetf_input]; regular expressions without
    special characters, for which [re.match] is a prefix test and
    [re.search] a substring test. *)

Definition sample_file : Type := list (F64.t * string).

Definition sample_read (rf : sample_file) (_ _ : bool) (_ : F64.t)
    (_ : option string) (_ : bool) : list F64.t * list string :=
  (map fst rf, map snd rf).

Definition sample_pulls (_ : string) (labels : list string)
  : list F64.t * list F64.t * list F64.t :=
  (map (fun _ => F64.half) labels,
   map (fun l => if String.eqb l "c" then F64.one else F64.half) labels,
   map (fun _ => F64.zero) labels).

Definition sample_match (pattern s : string) : bool := String.prefix pattern s.
Definition sample_search (pattern s : string) : bool := str_in pattern s.

(** The impacts [1.0, -2.0, 0.5] of ["a"], ["b"] and ["c"]. *)
Definition sample_fit : sample_file :=
  [(F64.of_Z 1, "a"); (F64.of_Z (-2), "b"); (F64.half, "c")].

Definition sample_reference : sample_file :=
  [(F64.of_Z 3, "b"); (F64.of_Z 1, "d")].

(** ** Frames whose rows are given by a function of the entries *)

Section FrameLemmas.
Context {X : Type}.
Implicit Types (l : list X) (g : X -> gmap string cell).

Lemma mapM_map_Ok {A B} (f : A -> result B) (h : X -> A) (k : X -> B) l :
  (forall x, f (h x) = Ok (k x)) ->
  mapM f (map h l) = Ok (map k l).
Proof.
  intros Hf. induction l as [|x l IH]; simpl; [reflexivity|].
  rewrite Hf. simpl. rewrite IH. reflexivity.
Qed.

Lemma get_col_map c cols g (h : X -> cell) l :
  inb c cols = true ->
  (forall x, g x !! c = Some (h x)) ->
  get_col c (mkDF cols (map g l)) = Ok (map h l).
Proof.
  intros Hc Hg. unfold get_col. simpl. rewrite Hc.
  apply mapM_map_Ok. intros x. rewrite Hg. reflexivity.
Qed.

Lemma set_col_map c cols g (h : X -> cell) l :
  set_col c (map h l) (mkDF cols (map g l))
  = Ok (mkDF (add_column c cols) (map (fun x => <[c := h x]> (g x)) l)).
Proof.
  unfold set_col. simpl. rewrite !length_map, Nat.eqb_refl.
  do 2 f_equal. induction l as [|x l IH]; simpl; [reflexivity|].
  rewrite IH. reflexivity.
Qed.

Lemma col_map_map f (h : X -> F64.t) l :
  col_map f (map (fun x => Num (h x)) l) = Ok (map (fun x => Num (f (h x))) l).
Proof. apply mapM_map_Ok. reflexivity. Qed.

Lemma col_zip_map f (h1 h2 : X -> F64.t) l :
  col_zip f (map (fun x => Num (h1 x)) l) (map (fun x => Num (h2 x)) l)
  = Ok (map (fun x => Num (f (h1 x) (h2 x))) l).
Proof.
  unfold col_zip.
  replace (zip (map (fun x => Num (h1 x)) l) (map (fun x => Num (h2 x)) l))
    with (map (fun x => (Num (h1 x), Num (h2 x))) l).
  - apply mapM_map_Ok. reflexivity.
  - induction l as [|x l IH]; simpl; [reflexivity|]. rewrite IH. reflexivity.
Qed.

Lemma str_accessor_map (h : X -> string) l :
  str_accessor (map (fun x => Str (h x)) l)
  = if nonempty l then Ok (map (fun x => Str (h x)) l)
    else Raise AttributeError.
Proof. destruct l; reflexivity. Qed.

Lemma drop_mask_map g (m : X -> bool) l :
  drop_mask (map m l) (map g l)
  = map g (List.filter (fun x => negb (m x)) l).
Proof.
  unfold drop_mask. induction l as [|x l IH]; simpl; [reflexivity|].
  destruct (m x); simpl; [exact IH|]. f_equal. exact IH.
Qed.
End FrameLemmas.

(** ** The table of [readFitInfoFromFile] in closed form *)

Lemma mk_entries_proj (l : list entry) :
  mk_entries (map e_impact l) (map e_label l) (map e_pull l)
             (map e_constraint l) (map e_prefit l) = l.
Proof.
  unfold mk_entries. induction l as [|[i lb p c pp] l IH]; simpl;
    [reflexivity|]. f_equal. exact IH.
Qed.

Lemma mk_entries_maps impacts labels pulls constraints prefit :
  length labels = length impacts ->
  length pulls = length impacts ->
  length constraints = length impacts ->
  length prefit = length impacts ->
  let l := mk_entries impacts labels pulls constraints prefit in
  map e_impact l = impacts /\ map e_label l = labels /\
  map e_pull l = pulls /\ map e_constraint l = constraints /\
  map e_prefit l = prefit.
Proof.
  unfold mk_entries.
  revert labels pulls constraints prefit.
  induction impacts as [|i impacts IH];
    intros [|lb labels] [|p pulls] [|c constraints] [|pp prefit];
    simpl; intros H1 H2 H3 H4; try discriminate; [repeat split|].
  injection H1 as H1. injection H2 as H2. injection H3 as H3.
  injection H4 as H4.
  destruct (IH labels pulls constraints prefit H1 H2 H3 H4)
    as (E1 & E2 & E3 & E4 & E5).
  repeat split; f_equal; assumption.
Qed.

Lemma filter_all {A} (f : A -> bool) (l : list A) :
  (forall x, f x = true) -> List.filter f l = l.
Proof.
  intros Hf. induction l as [|x l IH]; simpl; [reflexivity|].
  rewrite Hf, IH. reflexivity.
Qed.

Lemma Forall2_map_diag {A B} (P : A -> B -> Prop) (f : A -> B) (l : list A) :
  (forall x, P x (f x)) -> Forall2 P l (map f l).
Proof.
  intros H. induction l as [|x l IH]; simpl; constructor; auto.
Qed.

Lemma map_filter_comm {A B} (f : A -> B) (g : A -> bool) (h : B -> bool)
    (l : list A) :
  (forall x, g x = h (f x)) ->
  map f (List.filter g l) = List.filter h (map f l).
Proof.
  intros H. induction l as [|x l IH]; simpl; [reflexivity|].
  rewrite H. destruct (h (f x)); simpl; rewrite IH; reflexivity.
Qed.

Lemma filter_filter_andb {A} (f g : A -> bool) (l : list A) :
  List.filter g (List.filter f l) = List.filter (fun x => f x && g x) l.
Proof.
  induction l as [|x l IH]; simpl; [reflexivity|].
  destruct (f x); simpl; [destruct (g x)|]; rewrite IH; reflexivity.
Qed.

Lemma map_pair_zip {A B C} (a : A -> B) (b : A -> C) (l : list A) :
  map (fun x => (a x, b x)) l = zip (map a l) (map b l).
Proof.
  induction l as [|x l IH]; simpl; [reflexivity|]. rewrite IH. reflexivity.
Qed.

Lemma zip_map_fst_snd {A B} (l : list (A * B)) :
  zip (map fst l) (map snd l) = l.
Proof.
  induction l as [|[a b] l IH]; simpl; [reflexivity|]. rewrite IH.
  reflexivity.
Qed.

Lemma bind_Ok {A B} (a : A) (f : A -> result B) : (Ok a ≫= f) = f a.
Proof. reflexivity. Qed.

Ltac lookup_steps :=
  intros;
  repeat first [ rewrite lookup_insert_ne by discriminate
               | rewrite lookup_insert_eq
               | rewrite lookup_singleton_eq ];
  reflexivity.

Ltac frame_step :=
  first [ rewrite set_col_map
        | erewrite get_col_map; [ | reflexivity | lookup_steps ]
        | rewrite col_map_map
        | rewrite col_zip_map ];
  rewrite ?bind_Ok.

Section BuilderFacts.
Variable fitresult : Type.
Variable read_impacts_poi :
  fitresult -> bool -> bool -> F64.t -> option string -> bool ->
  list F64.t * list string.
Variable get_pulls_and_constraints :
  string -> list string -> list F64.t * list F64.t * list F64.t.
Variable re_match : string -> string -> bool.
Variable re_search : string -> string -> bool.
Variable translate_label : gmap string string.

(** What the code relies on from the readers: one label per impact,
    and one pull, constraint and prefit pull per label asked for. *)
Hypothesis read_lengths : forall rf group add_total stat poi normalize,
  length (snd (read_impacts_poi rf group add_total stat poi normalize))
  = length (fst (read_impacts_poi rf group add_total stat poi normalize)).
Hypothesis pulls_lengths : forall filename labels,
  length (fst (fst (get_pulls_and_constraints filename labels)))
  = length labels /\
  length (snd (fst (get_pulls_and_constraints filename labels)))
  = length labels /\
  length (snd (get_pulls_and_constraints filename labels)) = length labels.

Local Abbreviation readFit :=
  (readFitInfoFromFile fitresult read_impacts_poi get_pulls_and_constraints
                       re_match re_search translate_label).

Lemma replace_inf_nan_quotient (e : entry) :
  replace_inf_nan (Num (quotient_of e)) = Num (newpull_of e).
Proof.
  unfold newpull_of. destruct (quotient_of e); reflexivity.
Qed.

Lemma readFit_lists rf filename poi group grouping filters stat normalize
    scale (l : list entry) :
  (let '(i, ls) := read_impacts_poi rf group group stat poi normalize in
   select_entries re_match group grouping filters i ls)
  = (map e_impact l, map e_label l) ->
  (group = false ->
   get_pulls_and_constraints filename (map e_label l)
   = (map e_pull l, map e_constraint l, map e_prefit l)) ->
  readFit rf filename poi group grouping filters stat normalize scale
  = if group || negb (truthy poi) || nonempty l
    then Ok (mkDF (table_columns group)
               (map (table_row translate_label scale group)
                  (List.filter
                     (fun e => negb (poi_dropped re_search translate_label
                                                 poi group e))
                     l)))
    else Raise AttributeError.
Proof.
  intros Hsel Hpulls. unfold readFitInfoFromFile.
  destruct (read_impacts_poi rf group group stat poi normalize) as [i ls].
  rewrite Hsel. unfold frame_of_column.
  rewrite !map_map. do 4 frame_step.
  destruct group.
  - cbv iota. rewrite ?bind_Ok. frame_step. simpl rows.
    rewrite map_map, set_col_map.
    rewrite filter_all by reflexivity. reflexivity.
  - cbv iota. specialize (Hpulls eq_refl). unfold add_pulls. rewrite Hpulls.
    rewrite !map_map. repeat frame_step.
    rewrite map_map. frame_step.
    assert (Hrow : forall e,
               <["impact_color" := Str (if F64.ltb F64.zero (F64.mul (e_impact e) scale) then red else blue)]>
                 (<["newpull" := replace_inf_nan (Num (quotient_of e))]>
                    (<["newpull" := Num (quotient_of e)]>
                       (<["abspull" := Num (F64.abs (pull_of e))]>
                          (<["pull" := Num (pull_of e)]>
                             (<["pull_prefit" := Num (e_prefit e)]>
                                (<["constraint" := Num (e_constraint e)]>
                                   (<["pull" := Num (e_pull e)]>
                                      (<["absimpact" := Num (F64.abs (F64.mul (e_impact e) scale))]>
                                         (<["label" := Str (translate translate_label (e_label e))]>
                                            {["impact" := Num (F64.mul (e_impact e) scale)]})))))))))
               = ungrouped_row translate_label scale e).
    { intros e. rewrite replace_inf_nan_quotient. reflexivity. }
    destruct (truthy poi) eqn:Hpoi.
    + frame_step. rewrite str_accessor_map.
      destruct (nonempty l) eqn:Hl; [|reflexivity].
      cbn [orb negb]. rewrite bind_Ok.
      erewrite (mapM_map_Ok _ _
                  (fun x => re_search (str_replace (default "" poi) "_noi" "")
                              (translate translate_label (e_label x))))
        by reflexivity.
      rewrite ?bind_Ok. simpl rows. rewrite drop_mask_map.
      frame_step.
      erewrite (mapM_map_Ok positive_color _
                  (fun x => Str (color_of (F64.mul (e_impact x) scale))))
        by reflexivity.
      rewrite ?bind_Ok, set_col_map. f_equal. f_equal.
      unfold poi_dropped. rewrite Hpoi. simpl andb.
      apply map_ext. intros e. apply Hrow.
    + rewrite ?bind_Ok. frame_step.
      erewrite (mapM_map_Ok positive_color _
                  (fun x => Str (color_of (F64.mul (e_impact x) scale))))
        by reflexivity.
      rewrite ?bind_Ok, set_col_map. f_equal. f_equal.
      unfold poi_dropped. rewrite Hpoi. simpl andb.
      rewrite filter_all by reflexivity.
      apply map_ext. intros e. apply Hrow.
Qed.

Lemma zip_fst_snd {A B} (l1 : list A) (l2 : list B) :
  length l2 = length l1 ->
  map fst (zip l1 l2) = l1 /\ map snd (zip l1 l2) = l2.
Proof.
  revert l2. induction l1 as [|a l1 IH]; intros [|b l2]; simpl;
    intros H; try discriminate; [split; reflexivity|].
  injection H as H. destruct (IH l2 H) as [E1 E2].
  split; f_equal; assumption.
Qed.

Lemma select_entries_filter group grouping filters impacts labels :
  length labels = length impacts ->
  select_entries re_match group grouping filters impacts labels
  = (map fst (List.filter
                (fun p => selected re_match group grouping filters (snd p))
                (zip impacts labels)),
     map snd (List.filter
                (fun p => selected re_match group grouping filters (snd p))
                (zip impacts labels))).
Proof.
  intros Hlen. unfold select_entries.
  destruct (grouping_active group grouping || nonempty filters) eqn:Hact;
    [reflexivity|].
  apply orb_false_elim in Hact. destruct Hact as [Hg Hf].
  rewrite filter_all.
  - destruct (zip_fst_snd impacts labels Hlen) as [E1 E2].
    rewrite E1, E2. reflexivity.
  - intros x. unfold selected. rewrite Hg, Hf. reflexivity.
Qed.

Local Abbreviation entries_of :=
  (selected_entries fitresult read_impacts_poi get_pulls_and_constraints
                    re_match).
Local Abbreviation rows_of :=
  (table_entries fitresult read_impacts_poi get_pulls_and_constraints
                 re_match re_search translate_label).

Local Abbreviation reads :=
  (labels_read fitresult read_impacts_poi re_match).

Lemma selected_entries_pairs rf filename poi group grouping filters stat
    normalize :
  map (fun e => (e_impact e, e_label e))
      (entries_of rf filename poi group grouping filters stat normalize)
  = List.filter
      (fun p => selected re_match group grouping filters (snd p))
      (zip (fst (read_impacts_poi rf group group stat poi normalize))
           (snd (read_impacts_poi rf group group stat poi normalize))).
Proof.
  unfold selected_entries.
  destruct (read_impacts_poi rf group group stat poi normalize) as [i ls].
  simpl fst. simpl snd.
  set (K := List.filter _ (zip i ls)).
  rewrite map_pair_zip.
  assert (Hm : forall p c pp,
             length p = length K -> length c = length K ->
             length pp = length K ->
             zip (map e_impact (mk_entries (map fst K) (map snd K) p c pp))
                 (map e_label (mk_entries (map fst K) (map snd K) p c pp))
             = K).
  { intros p c pp L1 L2 L3.
    destruct (mk_entries_maps (map fst K) (map snd K) p c pp)
      as (E1 & E2 & _); rewrite ?length_map; try assumption;
      try reflexivity.
    rewrite E1, E2. apply zip_map_fst_snd. }
  destruct group.
  - apply Hm; apply length_map.
  - pose proof (pulls_lengths filename (map snd K)) as (L1 & L2 & L3).
    destruct (get_pulls_and_constraints filename (map snd K))
      as [[p c] pp]. simpl in L1, L2, L3. rewrite length_map in *.
    apply Hm; assumption.
Qed.

Lemma existsb_filter_zip {A B} (f : B -> bool) (l1 : list A) (l2 : list B) :
  length l2 = length l1 ->
  nonempty (List.filter (fun p => f (snd p)) (zip l1 l2)) = existsb f l2.
Proof.
  revert l2. induction l1 as [|a l1 IH]; intros [|b l2]; simpl;
    intros H; try discriminate; [reflexivity|].
  injection H as H. destruct (f b); [reflexivity|]. apply IH, H.
Qed.

Lemma nonempty_map {A B} (f : A -> B) (l : list A) :
  nonempty (map f l) = nonempty l.
Proof. destruct l; reflexivity. Qed.

(** An entry is selected when a label passes the selection. *)
Lemma selected_entries_nonempty rf filename poi group grouping filters stat
    normalize :
  nonempty (entries_of rf filename poi group grouping filters stat normalize)
  = existsb (selected re_match group grouping filters)
            (snd (read_impacts_poi rf group group stat poi normalize)).
Proof.
  rewrite <- (nonempty_map (fun e => (e_impact e, e_label e))).
  rewrite selected_entries_pairs. apply existsb_filter_zip.
  apply read_lengths.
Qed.

(** Under the contract of the readers [readFitInfoFromFile] returns a
    table, with one row for each entry that is selected and not
    dropped, unless line 292 finds no string in the label column. *)
Lemma readFit_closed rf filename poi group grouping filters stat normalize
    scale :
  readFit rf filename poi group grouping filters stat normalize scale
  = if reads rf poi group grouping filters stat normalize
    then Ok (mkDF (table_columns group)
               (map (table_row translate_label scale group)
                  (rows_of rf filename poi group grouping filters stat
                           normalize)))
    else Raise AttributeError.
Proof.
  unfold table_entries, labels_read.
  rewrite <- (selected_entries_nonempty rf filename).
  apply readFit_lists.
  - unfold selected_entries.
    pose proof (read_lengths rf group group stat poi normalize) as Hlen.
    destruct (read_impacts_poi rf group group stat poi normalize)
      as [i ls]. simpl in Hlen.
    rewrite (select_entries_filter _ _ _ _ _ Hlen).
    set (K := List.filter _ (zip i ls)).
    destruct group.
    + destruct (mk_entries_maps (map fst K) (map snd K)
                  (map (fun _ => F64.zero) K) (map (fun _ => F64.zero) K)
                  (map (fun _ => F64.zero) K)) as (E1 & E2 & _);
        rewrite ?length_map; try reflexivity.
      rewrite E1, E2. reflexivity.
    + pose proof (pulls_lengths filename (map snd K)) as (L1 & L2 & L3).
      destruct (get_pulls_and_constraints filename (map snd K))
        as [[p c] pp]. simpl in L1, L2, L3.
      destruct (mk_entries_maps (map fst K) (map snd K) p c pp)
        as (E1 & E2 & _); rewrite ?length_map in *; try assumption;
        try reflexivity.
      rewrite E1, E2. reflexivity.
  - intros ->. unfold selected_entries.
    pose proof (read_lengths rf false false stat poi normalize) as Hlen.
    destruct (read_impacts_poi rf false false stat poi normalize)
      as [i ls]. simpl in Hlen.
    set (K := List.filter _ (zip i ls)).
    pose proof (pulls_lengths filename (map snd K)) as (L1 & L2 & L3).
    destruct (mk_entries_maps (map fst K) (map snd K)
                (fst (fst (get_pulls_and_constraints filename (map snd K))))
                (snd (fst (get_pulls_and_constraints filename (map snd K))))
                (snd (get_pulls_and_constraints filename (map snd K))))
      as (E1 & E2 & E3 & E4 & E5); rewrite ?length_map in *;
      try assumption; try reflexivity.
    destruct (get_pulls_and_constraints filename (map snd K))
      as [[p c] pp] eqn:Hp. simpl in *.
    rewrite E2, E3, E4, E5. exact Hp.
Qed.


Lemma readFit_read rf filename poi group grouping filters stat normalize
    scale :
  reads rf poi group grouping filters stat normalize = true ->
  readFit rf filename poi group grouping filters stat normalize scale
  = Ok (mkDF (table_columns group)
          (map (table_row translate_label scale group)
             (rows_of rf filename poi group grouping filters stat
                      normalize))).
Proof. intros H. rewrite readFit_closed, H. reflexivity. Qed.

Lemma readFit_inv rf filename poi group grouping filters stat normalize
    scale df :
  readFit rf filename poi group grouping filters stat normalize scale
  = Ok df ->
  reads rf poi group grouping filters stat normalize = true /\
  df = mkDF (table_columns group)
         (map (table_row translate_label scale group)
            (rows_of rf filename poi group grouping filters stat normalize)).
Proof.
  rewrite readFit_closed.
  destruct (reads rf poi group grouping filters stat normalize);
    [|discriminate].
  intros H. injection H as <-. split; reflexivity.
Qed.

Lemma readFit_unread rf filename poi group grouping filters stat normalize
    scale :
  reads rf poi group grouping filters stat normalize = false ->
  readFit rf filename poi group grouping filters stat normalize scale
  = Raise AttributeError.
Proof. intros H. rewrite readFit_closed, H. reflexivity. Qed.

(** *** The columns of a row *)

Lemma row_impact scale group e :
  table_row translate_label scale group e !! "impact"
  = Some (Num (F64.mul (e_impact e) scale)).
Proof. destruct group; reflexivity. Qed.

Lemma row_absimpact scale group e :
  table_row translate_label scale group e !! "absimpact"
  = Some (Num (F64.abs (F64.mul (e_impact e) scale))).
Proof. destruct group; reflexivity. Qed.

Lemma row_label scale group e :
  table_row translate_label scale group e !! "label"
  = Some (Str (translate translate_label (e_label e))).
Proof. destruct group; reflexivity. Qed.

Lemma row_pull scale e :
  table_row translate_label scale false e !! "pull"
  = Some (Num (pull_of e)).
Proof. reflexivity. Qed.

Lemma row_abspull scale e :
  table_row translate_label scale false e !! "abspull"
  = Some (Num (F64.abs (pull_of e))).
Proof. reflexivity. Qed.

Lemma row_constraint scale e :
  table_row translate_label scale false e !! "constraint"
  = Some (Num (e_constraint e)).
Proof. reflexivity. Qed.

Lemma row_newpull scale e :
  table_row translate_label scale false e !! "newpull"
  = Some (Num (newpull_of e)).
Proof. reflexivity. Qed.

(** *** The sentinel *)

Lemma div_by_zero_inf_or_nan (x : F64.t) :
  F64.is_inf (F64.div x F64.zero) || F64.is_nan (F64.div x F64.zero) = true.
Proof. destruct x as [s|s| |s m e]; reflexivity. Qed.

Lemma quotient_constraint_one e :
  e_constraint e = F64.one ->
  F64.is_inf (quotient_of e) || F64.is_nan (quotient_of e) = true.
Proof.
  intros Hc. unfold quotient_of. rewrite Hc.
  change (F64.sqrt (F64.sub F64.one (F64.mul F64.one F64.one)))
    with F64.zero.
  apply div_by_zero_inf_or_nan.
Qed.

Lemma newpull_of_finite e :
  F64.is_inf (newpull_of e) = false /\ F64.is_nan (newpull_of e) = false.
Proof.
  unfold newpull_of. destruct (quotient_of e); simpl; split; reflexivity.
Qed.

(** C2.  In ungrouped mode, unless line 292 ends the call (a parameter
    of interest is given and no label passes the selection), the builder
    returns a table in which every row has
    [pull = raw_pull - prefit_pull] and, with [q] the quotient
    [pull / sqrt(1 - constraint^2)], [newpull = 999] whenever [q] is an
    infinity or NaN and [newpull = q] otherwise; [q] is an infinity or
    NaN for every row with [constraint = 1], so [newpull] is 999 there;
    no stored [newpull] is an infinity or NaN. *)
Theorem newpull_sentinel rf filename poi grouping filters stat normalize
    scale :
  labels_read fitresult read_impacts_poi re_match
              rf poi false grouping filters stat normalize = true ->
  exists df,
    readFit rf filename poi false grouping filters stat normalize scale
    = Ok df /\
    Forall2
      (fun e r =>
         let pull := F64.sub (e_pull e) (e_prefit e) in
         let q := F64.div pull
                    (F64.sqrt (F64.sub F64.one
                                 (F64.mul (e_constraint e) (e_constraint e)))) in
         r !! "pull" = Some (Num pull) /\
         r !! "constraint" = Some (Num (e_constraint e)) /\
         r !! "newpull"
         = Some (Num (if F64.is_inf q || F64.is_nan q then sentinel else q)) /\
         (e_constraint e = F64.one -> r !! "newpull" = Some (Num sentinel)) /\
         (forall x, r !! "newpull" = Some (Num x) ->
                    F64.is_inf x = false /\ F64.is_nan x = false))
      (rows_of rf filename poi false grouping filters stat normalize)
      (rows df).
Proof.
  intros Hread. eexists. split; [apply readFit_read, Hread|]. simpl rows.
  apply Forall2_map_diag. intros e. cbv zeta.
  rewrite row_pull, row_constraint, row_newpull.
  repeat split.
  - intros Hc. unfold newpull_of.
    rewrite (quotient_constraint_one e Hc). reflexivity.
  - injection H as <-. apply newpull_of_finite.
  - injection H as <-. apply newpull_of_finite.
Qed.

(** C10.  In ungrouped mode with a parameter of interest [p]: where
    at least one label passes the selection, the builder returns a table
    without any row whose translated label is matched, by [re.search],
    by [p] with every ["_noi"] removed, its rows being those of the
    selected entries that are not matched; where no label passes the
    selection, line 292 ends the builder in [AttributeError]. *)
Theorem poi_rows_dropped rf filename p grouping filters stat normalize
    scale :
  p <> "" ->
  let labels := snd (read_impacts_poi rf false false stat (Some p) normalize) in
  (existsb (selected re_match false grouping filters) labels = true ->
   exists df,
     readFit rf filename (Some p) false grouping filters stat normalize scale
     = Ok df /\
     (forall r s, In r (rows df) -> r !! "label" = Some (Str s) ->
                  re_search (str_replace p "_noi" "") s = false) /\
     rows df
     = map (table_row translate_label scale false)
         (List.filter
            (fun e => negb (re_search (str_replace p "_noi" "")
                              (translate translate_label (e_label e))))
            (entries_of rf filename (Some p) false grouping filters stat
                        normalize))) /\
  (existsb (selected re_match false grouping filters) labels = false ->
   readFit rf filename (Some p) false grouping filters stat normalize scale
   = Raise AttributeError).
Proof.
  intros Hp labels.
  assert (Hlr : reads rf (Some p) false grouping filters stat normalize
                = existsb (selected re_match false grouping filters) labels).
  { unfold labels_read. destruct p; [congruence|reflexivity]. }
  split; [|intros Hno; apply readFit_unread; rewrite Hlr; exact Hno].
  intros Hread. rewrite <- Hlr in Hread.
  eexists. split; [apply readFit_read, Hread|]. simpl rows.
  assert (Hdrop : forall e,
             poi_dropped re_search translate_label (Some p) false e
             = re_search (str_replace p "_noi" "")
                 (translate translate_label (e_label e))).
  { intros e. unfold poi_dropped. destruct p; [congruence|reflexivity]. }
  unfold table_entries. split.
  - intros r s Hin Hl. apply in_map_iff in Hin.
    destruct Hin as (e & <- & He). apply filter_In in He.
    destruct He as [_ He]. rewrite Hdrop in He.
    rewrite row_label in Hl. injection Hl as <-.
    apply negb_true_iff. exact He.
  - f_equal. apply filter_ext. intros e. rewrite Hdrop. reflexivity.
Qed.

(** *** Which entries have a row *)

Lemma table_entries_pairs rf filename poi group grouping filters stat
    normalize :
  map (fun e => (e_impact e, e_label e))
      (rows_of rf filename poi group grouping filters stat normalize)
  = List.filter
      (fun p => retained re_match re_search translate_label poi group
                         grouping filters (snd p))
      (zip (fst (read_impacts_poi rf group group stat poi normalize))
           (snd (read_impacts_poi rf group group stat poi normalize))).
Proof.
  unfold table_entries.
  rewrite (map_filter_comm _ _
             (fun p => negb (negb group && truthy poi &&
                             re_search (str_replace (default "" poi) "_noi" "")
                               (translate translate_label (snd p)))))
    by reflexivity.
  rewrite selected_entries_pairs, filter_filter_andb. reflexivity.
Qed.






End BuilderFacts.

(** ** Truncation *)



(** ** The outer join in closed form *)

(** The keys of the join with the entries of either side that carry
    them, or [None] where a side has none. *)
Definition joined_pairs {X Y} (lab : X -> string) (lab' : Y -> string)
    (l : list X) (l' : list Y) : list (string * option X * option Y) :=
  flat_map
    (fun k =>
       flat_map
         (fun a =>
            map (fun b => (k, a, b))
                (pad (List.filter (fun y => String.eqb (lab' y) k) l')))
         (pad (List.filter (fun x => String.eqb (lab x) k) l)))
    (sorted_keys (map lab l ++ map lab' l')).

Lemma filter_map_comm {A B} (f : A -> B) (h : B -> bool) (l : list A) :
  List.filter h (map f l) = map f (List.filter (fun x => h (f x)) l).
Proof. symmetry. apply map_filter_comm. reflexivity. Qed.

Lemma pad_map {A B} (f : A -> B) (l : list A) :
  pad (map f l) = map (fmap f) (pad l).
Proof.
  destruct l as [|x l]; [reflexivity|]. simpl. rewrite !map_map.
  reflexivity.
Qed.

Lemma map_flat_map {A B C} (f : B -> C) (g : A -> list B) (l : list A) :
  map f (flat_map g l) = flat_map (fun x => map f (g x)) l.
Proof.
  induction l as [|x l IH]; simpl; [reflexivity|].
  rewrite map_app, IH. reflexivity.
Qed.

Lemma flat_map_map {A B C} (f : A -> B) (g : B -> list C) (l : list A) :
  flat_map g (map f l) = flat_map (fun x => g (f x)) l.
Proof.
  induction l as [|x l IH]; simpl; [reflexivity|]. rewrite IH. reflexivity.
Qed.

Section MergeLemmas.
Context {X Y : Type}.
Variables (lab : X -> string) (lab' : Y -> string).
Variables (g : X -> gmap string cell) (g' : Y -> gmap string cell).
Variables (cols cols' : list string) (on suffix : string).
Hypothesis on_left : inb on cols = true.
Hypothesis on_right : inb on cols' = true.
Hypothesis key_left : forall x, g x !! on = Some (Str (lab x)).
Hypothesis key_right : forall y, g' y !! on = Some (Str (lab' y)).

Definition joined_row (p : string * option X * option Y)
  : gmap string cell :=
  join_rows on (fst (fst p))
    (nan_row cols)
    (nan_row (map (suffixed cols suffix)
                  (List.filter (fun c => negb (String.eqb c on)) cols')))
    (g <$> snd (fst p))
    (rename_right on suffix cols cols' <$> (g' <$> snd p)).

Lemma merge_outer_map (l : list X) (l' : list Y) :
  merge_outer on suffix (mkDF cols (map g l)) (mkDF cols' (map g' l'))
  = Ok (mkDF
          (cols ++ map (suffixed cols suffix)
                     (List.filter (fun c => negb (String.eqb c on)) cols'))
          (map joined_row (joined_pairs lab lab' l l'))).
Proof.
  unfold merge_outer.
  rewrite (get_col_map on cols g (fun x => Str (lab x)) l on_left key_left).
  rewrite bind_Ok.
  rewrite (mapM_map_Ok as_str _ lab) by reflexivity. rewrite bind_Ok.
  rewrite (get_col_map on cols' g' (fun y => Str (lab' y)) l' on_right
             key_right).
  rewrite bind_Ok.
  rewrite (mapM_map_Ok as_str _ lab') by reflexivity. rewrite bind_Ok.
  simpl columns. simpl rows. do 2 f_equal.
  unfold joined_pairs. rewrite map_flat_map.
  apply flat_map_ext. intros k.
  rewrite (filter_map_comm g), (filter_map_comm g').
  rewrite (filter_ext (fun x => has_key on k (g x))
             (fun x => String.eqb (lab x) k))
    by (intros x; unfold has_key; rewrite key_left; reflexivity).
  rewrite (filter_ext (fun y => has_key on k (g' y))
             (fun y => String.eqb (lab' y) k))
    by (intros y; unfold has_key; rewrite key_right; reflexivity).
  rewrite !pad_map, map_flat_map, flat_map_map.
  apply flat_map_ext. intros a.
  rewrite !map_map. apply map_ext. intros b. reflexivity.
Qed.
End MergeLemmas.

(** ** Filling the missing values in closed form *)

(** What the loop of lines 400-401 does to one row. *)
Definition fill_cell (c : string) (r : gmap string cell) : gmap string cell :=
  match r !! c with
  | Some v => <[c := fillna (default_value c) v]> r
  | None => r
  end.

Definition fill_row (cs : list string) (r : gmap string cell)
  : gmap string cell :=
  foldl (fun r c => fill_cell c r) r cs.

Lemma inb_In (c : string) (l : list string) : inb c l = true <-> In c l.
Proof.
  unfold inb. rewrite existsb_exists. split.
  - intros (x & Hx & E). apply String.eqb_eq in E. subst. exact Hx.
  - intros H. exists c. split; [exact H|apply String.eqb_refl].
Qed.

Lemma fillna_default_idem (c : string) (v : cell) :
  fillna (default_value c) (fillna (default_value c) v)
  = fillna (default_value c) v.
Proof.
  unfold fillna. destruct (isna v) eqn:E.
  - destruct (isna (default_value c)); reflexivity.
  - rewrite E. reflexivity.
Qed.

Lemma fill_cell_lookup (c c' : string) (r : gmap string cell) :
  fill_cell c r !! c'
  = if String.eqb c c' then fillna (default_value c) <$> r !! c
    else r !! c'.
Proof.
  unfold fill_cell. destruct (String.eqb_spec c c') as [<-|Hne].
  - destruct (r !! c) eqn:E; simpl.
    + apply lookup_insert_eq.
    + exact E.
  - destruct (r !! c); [|reflexivity]. apply lookup_insert_ne. exact Hne.
Qed.

Lemma fill_row_lookup (cs : list string) (c : string) (r : gmap string cell) :
  fill_row cs r !! c
  = if inb c cs then fillna (default_value c) <$> r !! c else r !! c.
Proof.
  unfold fill_row. revert r.
  induction cs as [|c0 cs IH]; intros r; simpl; [reflexivity|].
  rewrite IH, fill_cell_lookup.
  destruct (String.eqb_spec c0 c) as [->|Hne].
  - rewrite String.eqb_refl. simpl.
    destruct (inb c cs); [|reflexivity].
    destruct (r !! c); simpl; [|reflexivity].
    rewrite fillna_default_idem. reflexivity.
  - assert (E : String.eqb c c0 = false)
      by (apply String.eqb_neq; congruence).
    rewrite E. reflexivity.
Qed.

Lemma fill_cell_is_Some (c c' : string) (r : gmap string cell) :
  is_Some (r !! c') -> is_Some (fill_cell c r !! c').
Proof.
  intros [v Hv]. rewrite fill_cell_lookup.
  destruct (String.eqb_spec c c') as [->|_].
  - rewrite Hv. eexists. reflexivity.
  - eexists. exact Hv.
Qed.

Section FillLemmas.
Context {P : Type}.

Lemma fillna_col_map (c : string) (cols : list string)
    (G : P -> gmap string cell) (l : list P) :
  inb c cols = true ->
  (forall p, is_Some (G p !! c)) ->
  fillna_col c (default_value c) (mkDF cols (map G l))
  = Ok (mkDF cols (map (fun p => fill_cell c (G p)) l)).
Proof.
  intros Hc Hp. unfold fillna_col.
  rewrite (get_col_map c cols G (fun p => default nan (G p !! c)) l Hc).
  - rewrite bind_Ok, map_map, set_col_map.
    unfold add_column. rewrite Hc. do 2 f_equal.
    apply map_ext. intros p. unfold fill_cell.
    destruct (Hp p) as [v ->]. reflexivity.
  - intros p. destruct (Hp p) as [v ->]. reflexivity.
Qed.

Lemma fill_columns_map (cs cols : list string)
    (G : P -> gmap string cell) (l : list P) :
  (forall c, In c cs -> inb c cols = true) ->
  (forall p c, In c cs -> is_Some (G p !! c)) ->
  fill_columns cs (mkDF cols (map G l))
  = Ok (mkDF cols (map (fun p => fill_row cs (G p)) l)).
Proof.
  revert G. induction cs as [|c cs IH]; intros G Hc Hp; simpl.
  - reflexivity.
  - rewrite fillna_col_map; [|apply Hc; left; reflexivity
                             |intros p; apply Hp; left; reflexivity].
    rewrite bind_Ok. rewrite IH.
    + reflexivity.
    + intros c' Hc'. apply Hc. right. exact Hc'.
    + intros p c' Hc'. apply fill_cell_is_Some, Hp. right. exact Hc'.
Qed.
End FillLemmas.

Section MergedRows.
Variable translate_label : gmap string string.
Variable scale : F64.t.

Definition merged_columns (g1 g2 : bool) : list string :=
  table_columns g1 ++
  map (suffixed (table_columns g1) "_ref")
      (List.filter (fun c => negb (String.eqb c "label")) (table_columns g2)).

Definition joined_table_row (g1 g2 : bool)
    (p : string * option entry * option entry) : gmap string cell :=
  joined_row (table_row translate_label scale g1)
             (table_row translate_label scale g2)
             (table_columns g1) (table_columns g2) "label" "_ref" p.

Definition merged_row (g1 g2 : bool)
    (p : string * option entry * option entry) : gmap string cell :=
  fill_row (merged_columns g1 g2) (joined_table_row g1 g2 p).

Lemma joined_impact g1 g2 k a b :
  joined_table_row g1 g2 (k, a, b) !! "impact"
  = Some (match a with
          | Some e => Num (F64.mul (e_impact e) scale)
          | None => nan
          end).
Proof. destruct g1, g2, a, b; reflexivity. Qed.

Lemma joined_present g1 g2 k a b :
  forallb (fun c => match joined_table_row g1 g2 (k, a, b) !! c with
                    | Some _ => true
                    | None => false
                    end) (merged_columns g1 g2) = true.
Proof. destruct g1, g2, a, b; reflexivity. Qed.

Lemma joined_absimpact g1 g2 k a b :
  joined_table_row g1 g2 (k, a, b) !! "absimpact"
  = Some (match a with
          | Some e => Num (F64.abs (F64.mul (e_impact e) scale))
          | None => nan
          end).
Proof. destruct g1, g2, a, b; reflexivity. Qed.

Lemma joined_pull g2 k a b :
  joined_table_row false g2 (k, a, b) !! "pull"
  = Some (match a with
          | Some e => Num (pull_of e)
          | None => nan
          end).
Proof. destruct g2, a, b; reflexivity. Qed.

Lemma joined_abspull g2 k a b :
  joined_table_row false g2 (k, a, b) !! "abspull"
  = Some (match a with
          | Some e => Num (F64.abs (pull_of e))
          | None => nan
          end).
Proof. destruct g2, a, b; reflexivity. Qed.

Lemma joined_label g1 g2 k a b :
  joined_table_row g1 g2 (k, a, b) !! "label" = Some (Str k).
Proof. destruct g1, g2, a, b; reflexivity. Qed.


Lemma joined_missing_right g1 g2 k a c :
  In c (merged_columns g1 g2) -> ~ In c (table_columns g1) ->
  joined_table_row g1 g2 (k, a, None) !! c = Some nan.
Proof.
  intros Hc Hl.
  destruct g1, g2, a; simpl in Hc, Hl;
    repeat (destruct Hc as [<-|Hc];
            [try reflexivity; exfalso; apply Hl; tauto|]);
    destruct Hc.
Qed.

Lemma merged_lookup g1 g2 p c :
  In c (merged_columns g1 g2) ->
  merged_row g1 g2 p !! c
  = fillna (default_value c) <$> joined_table_row g1 g2 p !! c.
Proof.
  intros Hc. unfold merged_row. rewrite fill_row_lookup.
  apply inb_In in Hc. rewrite Hc. reflexivity.
Qed.

Lemma merged_columns_left g1 g2 c :
  In c (table_columns g1) -> In c (merged_columns g1 g2).
Proof. intros H. apply in_or_app. left. exact H. Qed.

(** The join of two tables of the builder, with the defaults. *)
Lemma merge_reference_closed g1 g2 (l l' : list entry) :
  merge_reference
    (mkDF (table_columns g1) (map (table_row translate_label scale g1) l))
    (mkDF (table_columns g2) (map (table_row translate_label scale g2) l'))
  = Ok (mkDF (merged_columns g1 g2)
          (map (merged_row g1 g2)
             (joined_pairs
                (fun e => translate translate_label (e_label e))
                (fun e => translate translate_label (e_label e)) l l'))).
Proof.
  unfold merge_reference.
  rewrite (merge_outer_map
             (fun e => translate translate_label (e_label e))
             (fun e => translate translate_label (e_label e))).
  - rewrite bind_Ok. simpl columns.
    apply (fill_columns_map (merged_columns g1 g2) (merged_columns g1 g2)
             (joined_table_row g1 g2)).
    + intros c Hc. apply inb_In. exact Hc.
    + intros [[k a] b] c Hc.
      pose proof (joined_present g1 g2 k a b) as Hall.
      rewrite forallb_forall in Hall. specialize (Hall c Hc).
      destruct (joined_table_row g1 g2 (k, a, b) !! c);
        [eexists; reflexivity|discriminate].
  - destruct g1; reflexivity.
  - destruct g2; reflexivity.
  - intros e. destruct g1; reflexivity.
  - intros e. destruct g2; reflexivity.
Qed.
End MergedRows.


(** ** Which rows a join has *)





Lemma filter_eqb_nil {X} (lab : X -> string) (l : list X) (k : string) :
  ~ In k (map lab l) ->
  List.filter (fun x => String.eqb (lab x) k) l = [].
Proof.
  intros H. induction l as [|x l IH]; simpl; [reflexivity|].
  destruct (String.eqb_spec (lab x) k) as [E|_].
  - exfalso. apply H. left. exact E.
  - apply IH. intros Hk. apply H. right. exact Hk.
Qed.


(** ** The table of [producePlots] *)

Definition table_labels (df : DataFrame) : list (option cell) :=
  map (fun r : gmap string cell => r !! "label") (rows df).

Section PipelineFacts.
Variable fitresult : Type.
Variable read_impacts_poi :
  fitresult -> bool -> bool -> F64.t -> option string -> bool ->
  list F64.t * list string.
Variable get_pulls_and_constraints :
  string -> list string -> list F64.t * list F64.t * list F64.t.
Variable re_match : string -> string -> bool.
Variable re_search : string -> string -> bool.
Variable translate_label : gmap string string.

Hypothesis read_lengths : forall rf group add_total stat poi normalize,
  length (snd (read_impacts_poi rf group add_total stat poi normalize))
  = length (fst (read_impacts_poi rf group add_total stat poi normalize)).
Hypothesis pulls_lengths : forall filename labels,
  length (fst (fst (get_pulls_and_constraints filename labels)))
  = length labels /\
  length (snd (fst (get_pulls_and_constraints filename labels)))
  = length labels /\
  length (snd (get_pulls_and_constraints filename labels)) = length labels.

Local Abbreviation readFit :=
  (readFitInfoFromFile fitresult read_impacts_poi get_pulls_and_constraints
                       re_match re_search translate_label).
Local Abbreviation rows_of :=
  (table_entries fitresult read_impacts_poi get_pulls_and_constraints
                 re_match re_search translate_label).
Local Abbreviation lab :=
  (fun e : entry => translate translate_label (e_label e)).

Lemma table_labels_rows scale group (l : list entry) :
  table_labels (mkDF (table_columns group)
                     (map (table_row translate_label scale group) l))
  = map (fun e => Some (Str (lab e))) l.
Proof.
  unfold table_labels. simpl rows. rewrite map_map.
  apply map_ext. intros e. apply row_label.
Qed.


End PipelineFacts.

(** ** The order of [sort_values] *)

Lemma SFcompare_antisym (x y : F64.t) :
  SFcompare y x = option_map CompOpp (SFcompare x y).
Proof.
  destruct x as [s|s| |s m e], y as [s'|s'| |s' m' e']; simpl;
    try reflexivity; try (destruct s; reflexivity);
    try (destruct s'; reflexivity);
    try (destruct s, s'; reflexivity).
  destruct s, s'; try reflexivity; simpl;
    rewrite (Z.compare_antisym e e'); destruct (e ?= e')%Z; simpl;
    try reflexivity; f_equal;
    change (Pos.compare_cont Eq m' m) with (Pos.compare m' m);
    change (Pos.compare_cont Eq m m') with (Pos.compare m m');
    rewrite (Pos.compare_antisym m m'); destruct (m ?= m')%positive;
    reflexivity.
Qed.

Lemma F64_leb_total (x y : F64.t) :
  F64.is_nan x = false -> F64.is_nan y = false ->
  F64.leb x y = false -> F64.leb y x = true.
Proof.
  unfold F64.leb, SFleb. intros Hx Hy. rewrite (SFcompare_antisym x y).
  destruct (SFcompare x y) as [[| |]|] eqn:E; simpl; try discriminate;
    try reflexivity.
  destruct x, y; try discriminate; simpl in E; discriminate.
Qed.

Lemma String_leb_total (s t : string) :
  String.leb s t = false -> String.leb t s = true.
Proof.
  unfold String.leb. rewrite (String.compare_antisym t s).
  destruct (String.compare s t); simpl; congruence.
Qed.

Lemma key_leb_total (ascending : bool) (a b : cell) :
  key_leb ascending a b = false -> key_leb ascending b a = true.
Proof.
  unfold key_leb.
  destruct (isna b) eqn:Hb; [discriminate|].
  destruct (isna a) eqn:Ha; [reflexivity|].
  assert (Htot : forall u v, isna u = false -> isna v = false ->
                             cell_leb u v = false -> cell_leb v u = true).
  { intros [x|s] [y|t] Hu Hv; simpl; try congruence.
    - apply F64_leb_total; [destruct x|destruct y]; simpl in *; congruence.
    - apply String_leb_total. }
  destruct ascending; apply Htot; assumption.
Qed.

Section Isort.
Context {A : Type}.
Variable leb : A -> A -> bool.
Hypothesis leb_total : forall x y, leb x y = false -> leb y x = true.

Lemma insert_sorted_perm (x : A) (l : list A) :
  Permutation (x :: l) (insert_sorted leb x l).
Proof.
  induction l as [|y l IH]; simpl; [reflexivity|].
  destruct (leb x y); [reflexivity|].
  rewrite perm_swap. apply perm_skip. exact IH.
Qed.

Lemma isort_perm (l : list A) : Permutation l (isort leb l).
Proof.
  induction l as [|x l IH]; simpl; [reflexivity|].
  rewrite <- insert_sorted_perm. apply perm_skip. exact IH.
Qed.

Lemma insert_sorted_HdRel (a x : A) (l : list A) :
  leb a x = true ->
  HdRel (fun u v => leb u v = true) a l ->
  HdRel (fun u v => leb u v = true) a (insert_sorted leb x l).
Proof.
  intros Hax Hl. destruct l as [|y l]; simpl.
  - constructor. exact Hax.
  - destruct (leb x y); constructor; [exact Hax|].
    inversion Hl. assumption.
Qed.

Lemma insert_sorted_Sorted (x : A) (l : list A) :
  Sorted (fun u v => leb u v = true) l ->
  Sorted (fun u v => leb u v = true) (insert_sorted leb x l).
Proof.
  induction l as [|y l IH]; simpl; intros Hs.
  - repeat constructor.
  - destruct (leb x y) eqn:E.
    + constructor; [exact Hs|constructor; exact E].
    + inversion Hs as [|? ? Hs' Hhd]; subst.
      constructor; [apply IH; exact Hs'|].
      apply insert_sorted_HdRel; [apply leb_total; exact E|exact Hhd].
Qed.

Lemma isort_Sorted (l : list A) :
  Sorted (fun u v => leb u v = true) (isort leb l).
Proof.
  induction l as [|x l IH]; simpl; [constructor|].
  apply insert_sorted_Sorted. exact IH.
Qed.
End Isort.

Lemma row_leb_total (by_ : string) (ascending : bool)
    (r1 r2 : gmap string cell) :
  row_leb by_ ascending r1 r2 = false -> row_leb by_ ascending r2 r1 = true.
Proof. apply key_leb_total. Qed.

(** ** Sort key and sort on any frame *)

(** The number a row holds in a column. *)
Definition num_at (c : string) (r : gmap string cell) : F64.t :=
  match r !! c with
  | Some (Num x) => x
  | _ => S754_nan
  end.

Lemma mapM_Ok_in {A B} (f : A -> result B) (k : A -> B) (l : list A) :
  (forall x, In x l -> f x = Ok (k x)) -> mapM f l = Ok (map k l).
Proof.
  induction l as [|x l IH]; simpl; intros H; [reflexivity|].
  rewrite (H x) by (left; reflexivity). simpl.
  rewrite IH by (intros y Hy; apply H; right; exact Hy). reflexivity.
Qed.

Lemma get_col_rows (c : string) (cols : list string)
    (h : gmap string cell -> cell) (rs : list (gmap string cell)) :
  inb c cols = true ->
  (forall r, In r rs -> r !! c = Some (h r)) ->
  get_col c (mkDF cols rs) = Ok (map h rs).
Proof.
  intros Hc Hr. unfold get_col. simpl. rewrite Hc.
  apply mapM_Ok_in. intros r Hin. rewrite (Hr r Hin). reflexivity.
Qed.

Lemma set_col_rows (c : string) (cols : list string)
    (h : gmap string cell -> cell) (rs : list (gmap string cell)) :
  set_col c (map h rs) (mkDF cols rs)
  = Ok (mkDF (add_column c cols) (map (fun r => <[c := h r]> r) rs)).
Proof.
  pose proof (set_col_map c cols (fun r => r) h rs) as H.
  rewrite map_id in H. exact H.
Qed.

Lemma inb_add_column (c : string) (cols : list string) :
  inb c (add_column c cols) = true.
Proof.
  unfold add_column. destruct (inb c cols) eqn:E; [exact E|].
  apply inb_In, in_or_app. right. left. reflexivity.
Qed.

Lemma homogeneous_nums {A} (f : A -> F64.t) (l : list A) :
  homogeneous (map (fun x => Num (f x)) l) = true.
Proof.
  unfold homogeneous. apply orb_true_intro. left.
  apply forallb_forall. intros c Hc. apply in_map_iff in Hc.
  destruct Hc as (x & <- & _). reflexivity.
Qed.

Lemma sort_column_names (col : string) :
  In col ["pull"; "abspull"; "constraint"; "absimpact"] ->
  endswith (col ++ "_diff") "diff" = true /\
  str_replace (col ++ "_diff") "_diff" "" = col /\
  endswith (col ++ "_both") "diff" = false /\
  endswith (col ++ "_both") "both" = true /\
  str_replace (col ++ "_both") "_both" "" = col.
Proof.
  simpl. intros [<-|[<-|[<-|[<-|[]]]]]; repeat split; reflexivity.
Qed.

(** Adding a column computed from two numeric columns, then sorting by
    it. *)
Lemma keyed_sort (f : F64.t -> F64.t -> F64.t) (col key : string)
    (ascending : bool) (cols : list string) (rs : list (gmap string cell)) :
  inb col cols = true -> inb (col ++ "_ref") cols = true ->
  (forall r, In r rs ->
             exists x y, r !! col = Some (Num x) /\
                         r !! (col ++ "_ref") = Some (Num y)) ->
  let keyed :=
    mkDF (add_column key cols)
         (map (fun r => <[key := Num (f (num_at col r)
                                        (num_at (col ++ "_ref") r))]> r) rs) in
  (cur ← get_col col (mkDF cols rs);
   ref ← get_col (col ++ "_ref") (mkDF cols rs);
   both ← col_zip f cur ref;
   set_col key both (mkDF cols rs)) = Ok keyed /\
  sort_values key ascending keyed
  = Ok (mkDF (add_column key cols)
             (isort (row_leb key ascending) (rows keyed))).
Proof.
  intros Hc Hr Hrows keyed. split.
  - rewrite (get_col_rows col cols (fun r => Num (num_at col r)) rs Hc).
    2:{ intros r Hin. destruct (Hrows r Hin) as (x & y & Hx & Hy).
        unfold num_at. rewrite Hx. reflexivity. }
    rewrite bind_Ok.
    rewrite (get_col_rows (col ++ "_ref") cols
               (fun r => Num (num_at (col ++ "_ref") r)) rs Hr).
    2:{ intros r Hin. destruct (Hrows r Hin) as (x & y & Hx & Hy).
        unfold num_at. rewrite Hy. reflexivity. }
    rewrite bind_Ok, col_zip_map, bind_Ok.
    apply (set_col_rows key cols
             (fun r => Num (f (num_at col r) (num_at (col ++ "_ref") r)))).
  - unfold sort_values, keyed.
    rewrite (get_col_map key _ _
               (fun r => Num (f (num_at col r) (num_at (col ++ "_ref") r))))
      by (first [apply inb_add_column | intros; apply lookup_insert_eq]).
    rewrite bind_Ok, homogeneous_nums. reflexivity.
Qed.











(** ** What the sort stage keeps *)

Lemma bind_Ok_inv {A B} (m : result A) (f : A -> result B) (b : B) :
  (m ≫= f) = Ok b -> exists a, m = Ok a /\ f a = Ok b.
Proof.
  destruct m as [a|e]; simpl; intros H; [|discriminate].
  exists a. split; [reflexivity|exact H].
Qed.

Lemma set_col_inv (c : string) (vals : list cell) (df df' : DataFrame) :
  set_col c vals df = Ok df' ->
  columns df' = add_column c (columns df) /\
  rows df' = zip_with (fun r v => <[c := v]> r) (rows df) vals.
Proof.
  unfold set_col. destruct (Nat.eqb _ _); intros H; [|discriminate].
  injection H as <-. split; reflexivity.
Qed.

Lemma zip_with_In {A B C} (f : A -> B -> C) (l1 : list A) (l2 : list B)
    (z : C) :
  In z (zip_with f l1 l2) -> exists x y, In x l1 /\ z = f x y.
Proof.
  revert l2. induction l1 as [|x l1 IH]; intros [|y l2]; simpl;
    try contradiction.
  intros [<-|H].
  - exists x, y. split; [left; reflexivity|reflexivity].
  - destruct (IH l2 H) as (x' & y' & Hx & E).
    exists x', y'. split; [right; exact Hx|exact E].
Qed.

Lemma add_column_nonempty (c : string) (cols : list string) :
  add_column c cols <> [].
Proof.
  unfold add_column. destruct (inb c cols) eqn:E.
  - destruct cols; [discriminate|congruence].
  - destruct cols; discriminate.
Qed.

Lemma add_sort_key_inv (s : string) (ascending : bool) (df df' : DataFrame) :
  add_sort_key s ascending df = Ok df' ->
  df' = df \/
  exists key suf vals,
    (suf = "_diff" \/ suf = "_both") /\
    set_col (key ++ suf) vals df = Ok df'.
Proof.
  unfold add_sort_key. destruct (endswith s "diff").
  - intros H. right.
    apply bind_Ok_inv in H. destruct H as (cur & _ & H).
    apply bind_Ok_inv in H. destruct H as (ref & _ & H).
    apply bind_Ok_inv in H. destruct H as (diff & _ & H).
    apply bind_Ok_inv in H. destruct H as (adiff & _ & H).
    exists (str_replace s "_diff" ""), "_diff", adiff.
    split; [left; reflexivity|exact H].
  - destruct (endswith s "both").
    + intros H. right.
      apply bind_Ok_inv in H. destruct H as (cur & _ & H).
      apply bind_Ok_inv in H. destruct H as (ref & _ & H).
      apply bind_Ok_inv in H. destruct H as (both & _ & H).
      exists (str_replace s "_both" ""), "_both", both.
      split; [right; reflexivity|exact H].
    + intros H. injection H as <-. left. reflexivity.
Qed.

Lemma sort_values_inv (by_ : string) (ascending : bool) (df df' : DataFrame) :
  sort_values by_ ascending df = Ok df' ->
  columns df' = columns df /\
  rows df' = isort (row_leb by_ ascending) (rows df).
Proof.
  unfold sort_values. intros H.
  apply bind_Ok_inv in H. destruct H as (keys & _ & H).
  destruct (homogeneous keys); [|discriminate].
  injection H as <-. split; reflexivity.
Qed.

(** A row of the sorted table is a row of the table before, with at most
    a sort key added. *)
Lemma sort_stage_inv (s : string) (ascending : bool) (df df' : DataFrame) :
  (if nonempty (list_ascii_of_string s)
   then df ← add_sort_key s ascending df; sort_values s ascending df
   else Ok df) = Ok df' ->
  (columns df <> [] -> columns df' <> []) /\
  forall r', In r' (rows df') ->
    exists r, In r (rows df) /\
      (r' = r \/
       exists key suf v,
         (suf = "_diff" \/ suf = "_both") /\ r' = <[key ++ suf := v]> r).
Proof.
  destruct (nonempty _).
  - intros H. apply bind_Ok_inv in H. destruct H as (keyed & Hk & Hs).
    apply sort_values_inv in Hs. destruct Hs as [Hc Hr].
    rewrite Hc, Hr.
    assert (Hin : forall r', In r' (isort (row_leb s ascending) (rows keyed))
                             -> In r' (rows keyed)).
    { intros r' H. eapply Permutation_in; [|exact H].
      symmetry. apply isort_perm. }
    apply add_sort_key_inv in Hk.
    destruct Hk as [->|(key & suf & vals & Hsuf & Hset)].
    + split; [tauto|]. intros r' H. exists r'.
      split; [apply Hin, H|left; reflexivity].
    + apply set_col_inv in Hset. destruct Hset as [Hc' Hr']. split.
      * intros _. rewrite Hc'. apply add_column_nonempty.
      * intros r' H. apply Hin in H. rewrite Hr' in H.
        apply zip_with_In in H. destruct H as (r & v & Hr0 & ->).
        exists r. split; [exact Hr0|]. right. exists key, suf, v.
        split; [exact Hsuf|reflexivity].
  - intros H. injection H as <-. split; [tauto|].
    intros r' H. exists r'. split; [exact H|left; reflexivity].
Qed.

(** [absimpact = |impact|] and [abspull = |pull|] in one row. *)
Definition abs_pair (a b : string) (r : gmap string cell) : Prop :=
  exists x, r !! b = Some (Num x) /\ r !! a = Some (Num (F64.abs x)).

Fixpoint last_char (s : string) : option ascii :=
  match s with
  | EmptyString => None
  | String c EmptyString => Some c
  | String _ s' => last_char s'
  end.

Lemma last_char_app (k s : string) :
  s <> "" -> last_char (k ++ s) = last_char s.
Proof.
  intros Hs. induction k as [|c k IH]; [reflexivity|].
  change (String c k ++ s) with (String c (k ++ s)).
  assert (Hne : k ++ s <> "").
  { destruct k as [|c' k']; [exact Hs|discriminate]. }
  simpl. destruct (k ++ s) eqn:E; [congruence|exact IH].
Qed.

Lemma sort_key_name (key suf c : string) :
  suf = "_diff" \/ suf = "_both" ->
  In c ["impact"; "absimpact"; "pull"; "abspull"] ->
  key ++ suf <> c.
Proof.
  intros Hsuf Hc E.
  assert (Hl : last_char c = last_char suf).
  { rewrite <- E. apply last_char_app.
    destruct Hsuf as [->| ->]; discriminate. }
  simpl in Hc.
  destruct Hsuf as [->| ->];
    destruct Hc as [<-|[<-|[<-|[<-|[]]]]]; discriminate.
Qed.

Lemma abs_pair_insert (a b key suf : string) (v : cell)
    (r : gmap string cell) :
  suf = "_diff" \/ suf = "_both" ->
  In a ["impact"; "absimpact"; "pull"; "abspull"] ->
  In b ["impact"; "absimpact"; "pull"; "abspull"] ->
  abs_pair a b r -> abs_pair a b (<[key ++ suf := v]> r).
Proof.
  intros Hsuf Ha Hb (x & Hx & Hax). exists x.
  rewrite !lookup_insert_ne by (apply sort_key_name; assumption).
  split; assumption.
Qed.

Lemma fillna_zero_abs (x : F64.t) :
  exists y, fillna (Num F64.zero) (Num x) = Num y /\
            fillna (Num F64.zero) (Num (F64.abs x)) = Num (F64.abs y).
Proof.
  destruct x as [s|s| |s m e]; eexists; split; reflexivity.
Qed.

Lemma abs_pair_fillna0 (a b : string) (r : gmap string cell) :
  abs_pair a b r -> abs_pair a b (fillna (Num F64.zero) <$> r).
Proof.
  intros (x & Hx & Hax). destruct (fillna_zero_abs x) as (y & Ey & Eay).
  exists y. rewrite !lookup_fmap, Hx, Hax. simpl.
  rewrite Ey, Eay. split; reflexivity.
Qed.

Lemma In_drop {A} (n : nat) (l : list A) (x : A) : In x (drop n l) -> In x l.
Proof.
  revert l. induction n as [|n IH]; intros [|y l]; simpl; try tauto.
  intros H. right. apply IH. exact H.
Qed.

Lemma truncate_rows (num : option Z) (df : DataFrame) (r : gmap string cell) :
  In r (rows (truncate num df)) -> In r (rows df).
Proof.
  unfold truncate. destruct num as [n|]; [|tauto].
  destruct (negb (n =? 0)%Z && (n <? df_size df)%Z); [|tauto].
  simpl. unfold py_tail. apply In_drop.
Qed.

Section PlotFacts.
Variable fitresult : Type.
Variable read_impacts_poi :
  fitresult -> bool -> bool -> F64.t -> option string -> bool ->
  list F64.t * list string.
Variable get_pulls_and_constraints :
  string -> list string -> list F64.t * list F64.t * list F64.t.
Variable re_match : string -> string -> bool.
Variable re_search : string -> string -> bool.
Variable translate_label : gmap string string.
Variable channel_info : fitresult -> gmap string channel.
Variable mev_value : string -> result F64.t.

Hypothesis read_lengths : forall rf group add_total stat poi normalize,
  length (snd (read_impacts_poi rf group add_total stat poi normalize))
  = length (fst (read_impacts_poi rf group add_total stat poi normalize)).
Hypothesis pulls_lengths : forall filename labels,
  length (fst (fst (get_pulls_and_constraints filename labels)))
  = length labels /\
  length (snd (fst (get_pulls_and_constraints filename labels)))
  = length labels /\
  length (snd (get_pulls_and_constraints filename labels)) = length labels.

Local Abbreviation readFit :=
  (readFitInfoFromFile fitresult read_impacts_poi get_pulls_and_constraints
                       re_match re_search translate_label).
Local Abbreviation returned :=
  (readFit_inv fitresult read_impacts_poi get_pulls_and_constraints
               re_match re_search translate_label read_lengths
               pulls_lengths).
Local Abbreviation build :=
  (build_table fitresult read_impacts_poi get_pulls_and_constraints
               re_match re_search translate_label).
Local Abbreviation plots :=
  (producePlots fitresult read_impacts_poi get_pulls_and_constraints
                re_match re_search translate_label channel_info mev_value).
Local Abbreviation scale_of := (poi_scale fitresult channel_info mev_value).

(** The invariant of the rows of a table: [with_pulls] says whether the
    table has the columns of the ungrouped mode. *)
Definition abs_invariant (with_pulls : bool) (r : gmap string cell) : Prop :=
  abs_pair "absimpact" "impact" r /\
  (with_pulls = true -> abs_pair "abspull" "pull" r).

Lemma table_row_invariant scale group e :
  abs_invariant (negb group) (table_row translate_label scale group e).
Proof.
  split.
  - eexists. split; [apply row_impact|apply row_absimpact].
  - destruct group; [discriminate|]. intros _.
    eexists. split; [apply row_pull|apply row_abspull].
Qed.

Lemma merged_row_invariant scale g1 g2 p :
  abs_invariant (negb g1) (merged_row translate_label scale g1 g2 p).
Proof.
  destruct p as [[k a] b]. split.
  - unfold abs_pair.
    rewrite !merged_lookup
      by (apply merged_columns_left; destruct g1; simpl; tauto).
    rewrite joined_impact, joined_absimpact.
    change (default_value "impact") with (Num F64.zero).
    change (default_value "absimpact") with (Num F64.zero).
    destruct a as [e|]; simpl.
    + destruct (fillna_zero_abs (F64.mul (e_impact e) scale))
        as (y & -> & ->).
      exists y. split; reflexivity.
    + exists F64.zero. split; reflexivity.
  - destruct g1; [discriminate|]. intros _. unfold abs_pair.
    rewrite !merged_lookup by (apply merged_columns_left; simpl; tauto).
    rewrite joined_pull, joined_abspull.
    change (default_value "pull") with (Num F64.zero).
    change (default_value "abspull") with (Num F64.zero).
    destruct a as [e|]; simpl.
    + destruct (fillna_zero_abs (pull_of e)) as (y & -> & ->).
      exists y. split; reflexivity.
    + exists F64.zero. split; reflexivity.
Qed.

Lemma abs_invariant_sorted with_pulls key suf v r :
  suf = "_diff" \/ suf = "_both" ->
  abs_invariant with_pulls r ->
  abs_invariant with_pulls (<[key ++ suf := v]> r).
Proof.
  intros Hsuf [H1 H2]. split.
  - apply abs_pair_insert; simpl; tauto.
  - intros Hp. apply abs_pair_insert; simpl; tauto.
Qed.

Lemma abs_invariant_fillna0 with_pulls r :
  abs_invariant with_pulls r ->
  abs_invariant with_pulls (fillna (Num F64.zero) <$> r).
Proof.
  intros [H1 H2]. split.
  - apply abs_pair_fillna0, H1.
  - intros Hp. apply abs_pair_fillna0, H2, Hp.
Qed.

(** The table of lines 389-418 has columns, and its rows keep the
    invariant. *)
Lemma build_table_inv fr args poi group normalize fr_ref grouping scale df :
  build fr args poi group normalize fr_ref grouping scale = Ok df ->
  columns df <> [] /\
  forall r, In r (rows df) ->
            abs_invariant (negb (group && is_mode args "output")) r.
Proof.
  unfold build_table. intros H.
  set (g1 := group && is_mode args "output") in *.
  apply bind_Ok_inv in H. destruct H as (d1 & H1 & H).
  assert (Hfirst :
            d1 = mkDF (table_columns g1)
                   (map (table_row translate_label scale g1)
                      (table_entries fitresult read_impacts_poi
                         get_pulls_and_constraints re_match re_search
                         translate_label fr (inputFile args) poi g1
                         (if g1 then grouping else None) []
                         (F64.div (stat args) (F64.of_Z 100)) normalize))).
  { destruct g1; simpl in H1; apply returned in H1; apply H1. }
  subst d1. clear H1.
  apply bind_Ok_inv in H. destruct H as (d2 & H2 & H).
  apply bind_Ok_inv in H. destruct H as (d3 & H3 & H).
  injection H as <-. apply sort_stage_inv in H3. destruct H3 as [Hc3 Hr3].
  assert (Hd2 : columns d2 <> [] /\
                forall r, In r (rows d2) -> abs_invariant (negb g1) r).
  { destruct fr_ref as [ref|].
    - apply bind_Ok_inv in H2. destruct H2 as (d_ref & Href & H2).
      apply returned in Href. destruct Href as [_ ->].
      rewrite merge_reference_closed in H2.
      injection H2 as <-. split.
      + destruct g1; discriminate.
      + intros r Hr. simpl in Hr. apply in_map_iff in Hr.
        destruct Hr as (p & <- & _). apply merged_row_invariant.
    - injection H2 as <-. split.
      + destruct g1; discriminate.
      + intros r Hr. simpl in Hr. apply in_map_iff in Hr.
        destruct Hr as (e & <- & _). apply table_row_invariant. }
  destruct Hd2 as [Hc2 Hr2]. split; [apply Hc3, Hc2|].
  intros r Hr. simpl in Hr. apply in_map_iff in Hr.
  destruct Hr as (r3 & <- & Hin3). apply abs_invariant_fillna0.
  destruct (Hr3 r3 Hin3) as (r2 & Hin2 & [->|(key & suf & v & Hsuf & ->)]).
  - apply Hr2, Hin2.
  - apply abs_invariant_sorted; [exact Hsuf|apply Hr2, Hin2].
Qed.

(** C1.  In every table that the builder returns, in every table of
    lines 389-418 (with or without the reference merged in, with or
    without a sort key) and in every table that is plotted, each row
    has [absimpact = |impact|], and [abspull = |pull|] where the table
    is the ungrouped one. *)
Theorem abs_columns rf filename args poi group normalize fr_ref grouping
    filters stat scale :
  (forall df,
      readFit rf filename poi group grouping filters stat normalize scale
      = Ok df ->
      forall r, In r (rows df) ->
                abs_pair "absimpact" "impact" r /\
                (group = false -> abs_pair "abspull" "pull" r)) /\
  (forall df,
      build rf args poi group normalize fr_ref grouping scale = Ok df ->
      forall r, In r (rows df) ->
                abs_pair "absimpact" "impact" r /\
                (group && is_mode args "output" = false ->
                 abs_pair "abspull" "pull" r)) /\
  (forall df,
      plots rf args poi group normalize fr_ref grouping = Ok (Some df) ->
      forall r, In r (rows df) ->
                abs_pair "absimpact" "impact" r /\
                (group && is_mode args "output" = false ->
                 abs_pair "abspull" "pull" r)).
Proof.
  split; [|split].
  - intros df H r Hr. apply returned in H. destruct H as [_ ->].
    simpl in Hr. apply in_map_iff in Hr. destruct Hr as (e & <- & _).
    destruct (table_row_invariant scale group e) as [H1 H2].
    split; [exact H1|]. intros ->. apply H2. reflexivity.
  - intros df H r Hr. apply build_table_inv in H.
    destruct H as [_ H]. destruct (H r Hr) as [H1 H2].
    split; [exact H1|]. intros Hg. apply H2. rewrite Hg. reflexivity.
  - intros df H r Hr. unfold producePlots in H.
    apply bind_Ok_inv in H. destruct H as (sc & _ & H).
    apply bind_Ok_inv in H. destruct H as (d & Hd & H).
    destruct (is_mode args "interactive"); [discriminate|].
    destruct (is_mode args "output") eqn:Hm; [|discriminate].
    injection H as <-. apply truncate_rows in Hr.
    apply build_table_inv in Hd. destruct Hd as [_ Hd].
    destruct (Hd r Hr) as [H1 H2]. rewrite Hm in H2.
    split; [exact H1|]. intros Hg. apply H2. rewrite Hg. reflexivity.
Qed.




End PlotFacts.

(** ** The sample fit result: the contract of its readers *)

Definition sample_channels (_ : sample_file) : gmap string channel :=
  {[ "chan_13TeV" := {| lumi := F64.of_Z 16 |} ]}.



Definition sample_mev (_ : string) : result F64.t := Ok (F64.of_Z 100).

Definition sample_args (sort_by : string) (limit : option Z) : Args :=
  {| inputFile := "fit.hdf5"; referenceFile := "reference.hdf5";
     sort := sort_by; stat := F64.zero; ascending := true;
     output_mode := Some "output"; num := limit |}.

(** [readFitInfoFromFile] and [producePlots] on sample files. *)
Definition sample_table (rf : sample_file) (poi : option string)
    (group : bool) (filters : list string) : result DataFrame :=
  readFitInfoFromFile sample_file sample_read sample_pulls sample_match
    sample_search ∅ rf "fit.hdf5" poi group None filters F64.zero false
    (F64.of_Z 2).

Definition sample_plots (channels : sample_file -> gmap string channel)
    (args : Args) (poi : option string) (fr_ref : option sample_file)
  : result (option DataFrame) :=
  producePlots sample_file sample_read sample_pulls sample_match
    sample_search ∅ channels sample_mev sample_fit args poi false false
    fr_ref None.

Definition sample_plotted : DataFrame :=
  match sample_plots sample_channels (sample_args "absimpact" None) None
                     (Some sample_reference) with
  | Ok (Some df) => df
  | _ => mkDF [] []
  end.


Lemma sample_read_lengths rf group add_total stat poi normalize :
  length (snd (sample_read rf group add_total stat poi normalize))
  = length (fst (sample_read rf group add_total stat poi normalize)).
Proof. unfold sample_read. simpl. rewrite !length_map. reflexivity. Qed.

Lemma sample_pulls_lengths filename labels :
  length (fst (fst (sample_pulls filename labels))) = length labels /\
  length (snd (fst (sample_pulls filename labels))) = length labels /\
  length (snd (sample_pulls filename labels)) = length labels.
Proof. unfold sample_pulls. simpl. rewrite !length_map. tauto. Qed.

Lemma Forall2_right {A B} (P : A -> B -> Prop) (Q : B -> Prop)
    (l : list A) (l' : list B) :
  (forall x y, P x y -> Q y) -> Forall2 P l l' -> Forall Q l'.
Proof.
  intros H HF. induction HF; constructor; eauto.
Qed.

(** ** The theorems on the sample fit result *)

Lemma sample_plotted_eq :
  sample_plots sample_channels (sample_args "absimpact" None) None
               (Some sample_reference) = Ok (Some sample_plotted).
Proof. vm_compute. reflexivity. Qed.


Lemma abs_columns_witness :
  sample_plots sample_channels (sample_args "absimpact" None) None
               (Some sample_reference) = Ok (Some sample_plotted) /\
  Forall (fun r => abs_pair "absimpact" "impact" r /\
                   abs_pair "abspull" "pull" r) (rows sample_plotted).
Proof.
  split; [exact sample_plotted_eq|]. apply List.Forall_forall. intros r Hr.
  destruct (abs_columns sample_file sample_read sample_pulls sample_match
              sample_search ∅ sample_channels sample_mev
              sample_read_lengths sample_pulls_lengths
              sample_fit "fit.hdf5" (sample_args "absimpact" None) None
              false false (Some sample_reference) None [] F64.zero F64.one)
    as (_ & _ & H).
  destruct (H sample_plotted sample_plotted_eq r Hr) as [H1 H2].
  split; [exact H1|]. apply H2. reflexivity.
Defined.

Lemma newpull_sentinel_witness :
  exists df,
    sample_table sample_fit None false [] = Ok df /\
    Forall (fun r : gmap string cell =>
              forall x, r !! "newpull" = Some (Num x) ->
                        F64.is_inf x = false /\ F64.is_nan x = false)
           (rows df).
Proof.
  destruct (newpull_sentinel sample_file sample_read sample_pulls
              sample_match sample_search ∅ sample_read_lengths
              sample_pulls_lengths sample_fit "fit.hdf5" None None []
              F64.zero false (F64.of_Z 2)) as (df & E & HF);
    [reflexivity|].
  exists df. split; [exact E|].
  eapply Forall2_right; [|exact HF]. cbv beta zeta.
  intros e r (_ & _ & _ & _ & H). exact H.
Defined.

Lemma poi_rows_dropped_witness :
  exists df,
    sample_table sample_fit (Some "a_noi") false [] = Ok df /\
    map (fun r : gmap string cell => r !! "label") (rows df)
    = [Some (Str "b"); Some (Str "c")].
Proof.
  destruct (poi_rows_dropped sample_file sample_read sample_pulls
              sample_match sample_search ∅ sample_read_lengths
              sample_pulls_lengths sample_fit "fit.hdf5" "a_noi" None []
              F64.zero false (F64.of_Z 2)) as [H _]; [discriminate|].
  destruct H as (df & E & _ & Hrows); [reflexivity|].
  exists df. split; [exact E|]. rewrite Hrows. vm_compute. reflexivity.
Defined.



Definition sample_ungrouped : DataFrame :=
  match sample_table sample_fit None false [] with
  | Ok df => df
  | Raise _ => mkDF [] []
  end.

Lemma sample_ungrouped_eq :
  sample_table sample_fit None false [] = Ok sample_ungrouped.
Proof. vm_compute. reflexivity. Qed.




(** ** Where the claims as first stated fail *)





(** * More on the table and on the sort stage *)

(** ** The shape of the table *)

Lemma table_row_dom tl scale group e c :
  is_Some (table_row tl scale group e !! c) <-> In c (table_columns group).
Proof.
  rewrite <- elem_of_dom.
  destruct group; unfold table_row, grouped_row, ungrouped_row;
    rewrite !dom_insert_L, dom_singleton_L; simpl;
    rewrite !elem_of_union, !elem_of_singleton;
    (split; intros H; repeat (destruct H as [H|H]); subst; tauto).
Qed.

Lemma row_color tl scale group e :
  table_row tl scale group e !! "impact_color"
  = Some (Str (if negb group && F64.ltb F64.zero (F64.mul (e_impact e) scale)
               then "#e41a1c" else "#377eb8")).
Proof.
  destruct group; simpl; [reflexivity|].
  unfold ungrouped_row, color_of. rewrite lookup_insert_eq.
  destruct (F64.ltb _ _); reflexivity.
Qed.

Section TableFacts.
Variable fitresult : Type.
Variable read_impacts_poi :
  fitresult -> bool -> bool -> F64.t -> option string -> bool ->
  list F64.t * list string.
Variable get_pulls_and_constraints :
  string -> list string -> list F64.t * list F64.t * list F64.t.
Variable re_match : string -> string -> bool.
Variable re_search : string -> string -> bool.
Variable translate_label : gmap string string.

Hypothesis read_lengths : forall rf group add_total stat poi normalize,
  length (snd (read_impacts_poi rf group add_total stat poi normalize))
  = length (fst (read_impacts_poi rf group add_total stat poi normalize)).
Hypothesis pulls_lengths : forall filename labels,
  length (fst (fst (get_pulls_and_constraints filename labels)))
  = length labels /\
  length (snd (fst (get_pulls_and_constraints filename labels)))
  = length labels /\
  length (snd (get_pulls_and_constraints filename labels)) = length labels.

Local Abbreviation read :=
  (readFit_read fitresult read_impacts_poi get_pulls_and_constraints
                re_match re_search translate_label read_lengths
                pulls_lengths).
Local Abbreviation unread :=
  (readFit_unread fitresult read_impacts_poi get_pulls_and_constraints
                  re_match re_search translate_label read_lengths
                  pulls_lengths).
Local Abbreviation returned :=
  (readFit_inv fitresult read_impacts_poi get_pulls_and_constraints
               re_match re_search translate_label read_lengths
               pulls_lengths).

(** X1.  Whatever the readers give (one label per impact, one pull,
    constraint and prefit pull per label), [readFitInfoFromFile] ends in
    one of two ways.  In ungrouped mode with a parameter of interest,
    when no label passes the selection, line 292 ends it in
    [AttributeError].  In every other case it returns a table: with the
    four columns impact, label, absimpact and impact_color in grouped
    mode, with these and the five pull columns in ungrouped mode; every
    row has a cell in each of these columns and in no other, and there
    is one row for each retained entry. *)
Theorem table_schema rf filename poi group grouping filters stat normalize
    scale :
  (group = false -> truthy poi = true ->
   Forall (fun l => selected re_match group grouping filters l = false)
          (snd (read_impacts_poi rf group group stat poi normalize)) ->
   readFitInfoFromFile fitresult read_impacts_poi get_pulls_and_constraints
     re_match re_search translate_label
     rf filename poi group grouping filters stat normalize scale
   = Raise AttributeError) /\
  (group = true \/ truthy poi = false \/
   Exists (fun l => selected re_match group grouping filters l = true)
          (snd (read_impacts_poi rf group group stat poi normalize)) ->
   exists df,
    readFitInfoFromFile fitresult read_impacts_poi get_pulls_and_constraints
      re_match re_search translate_label
      rf filename poi group grouping filters stat normalize scale = Ok df /\
    columns df
    = (if group
       then ["impact"; "label"; "absimpact"; "impact_color"]
       else ["impact"; "label"; "absimpact"; "pull"; "constraint";
             "pull_prefit"; "abspull"; "newpull"; "impact_color"]) /\
    (forall r, In r (rows df) ->
               forall c, is_Some (r !! c) <-> In c (columns df)) /\
    length (rows df)
    = length (List.filter
                (retained re_match re_search translate_label poi group
                          grouping filters)
                (snd (read_impacts_poi rf group group stat poi normalize)))).
Proof.
  split.
  { intros Hg Hp Hall. apply unread. unfold labels_read.
    rewrite Hp. destruct (existsb _ _) eqn:E; [|rewrite Hg; reflexivity].
    apply existsb_exists in E. destruct E as (l & Hl & Hs).
    rewrite List.Forall_forall in Hall. rewrite (Hall l Hl) in Hs.
    discriminate Hs. }
  intros Hread.
  assert (Hok : labels_read fitresult read_impacts_poi re_match rf poi group
                  grouping filters stat normalize = true).
  { unfold labels_read. destruct Hread as [-> | [-> | Hex]];
      [reflexivity|destruct group; reflexivity|].
    apply orb_true_iff. right. apply existsb_exists.
    apply List.Exists_exists in Hex. exact Hex. }
  eexists. split; [apply read, Hok|]. split; [destruct group; reflexivity|].
  split.
  - simpl. intros r Hr c. apply in_map_iff in Hr. destruct Hr as (e & <- & _).
    apply table_row_dom.
  - simpl rows. rewrite length_map.
    rewrite <- (length_map (fun e => (e_impact e, e_label e))).
    rewrite (table_entries_pairs fitresult read_impacts_poi
               get_pulls_and_constraints re_match re_search translate_label
               pulls_lengths).
    pose proof (read_lengths rf group group stat poi normalize) as Hlen.
    destruct (read_impacts_poi rf group group stat poi normalize) as [i ls].
    simpl in *. clear - Hlen.
    revert ls Hlen. induction i as [|x i IH]; intros [|l ls] H;
      try discriminate; [reflexivity|].
    simpl in *. injection H as H. specialize (IH ls H).
    destruct (retained _ _ _ _ _ _ _ l); simpl; congruence.
Qed.

(** X2.  The colour of a row of a table that [readFitInfoFromFile]
    returns: in ungrouped mode red ([#e41a1c]) exactly when the scaled
    impact is above zero, blue ([#377eb8]) otherwise, also for an impact
    of zero, a negative one or NaN; in grouped mode always blue. *)
Theorem impact_color_rule rf filename poi group grouping filters stat
    normalize scale df :
  readFitInfoFromFile fitresult read_impacts_poi get_pulls_and_constraints
    re_match re_search translate_label
    rf filename poi group grouping filters stat normalize scale = Ok df ->
    forall r, In r (rows df) ->
      exists x,
        r !! "impact" = Some (Num x) /\
        r !! "impact_color"
        = Some (Str (if negb group && F64.ltb F64.zero x
                     then "#e41a1c" else "#377eb8")) /\
        (r !! "impact_color" = Some (Str "#e41a1c") <->
         group = false /\ F64.ltb F64.zero x = true).
Proof.
  intros H r Hr. apply returned in H. destruct H as [_ ->].
  simpl in Hr. apply in_map_iff in Hr. destruct Hr as (e & <- & _).
  exists (F64.mul (e_impact e) scale).
  split; [apply (row_impact translate_label)|]. rewrite row_color.
  split; [reflexivity|].
  destruct group; simpl.
  - split; [discriminate|]. intros [H _]. discriminate.
  - destruct (F64.ltb _ _); split; try tauto; try discriminate.
    intros [_ H]. discriminate.
Qed.

End TableFacts.


(** ** Selection without an active grouping *)

Section Grouping.
Variable fitresult : Type.
Variable read_impacts_poi :
  fitresult -> bool -> bool -> F64.t -> option string -> bool ->
  list F64.t * list string.
Variable get_pulls_and_constraints :
  string -> list string -> list F64.t * list F64.t * list F64.t.
Variable re_match : string -> string -> bool.
Variable re_search : string -> string -> bool.
Variable translate_label : gmap string string.

Lemma select_entries_inactive group grouping filters impacts labels :
  grouping_active group grouping = false ->
  select_entries re_match group grouping filters impacts labels
  = select_entries re_match group None filters impacts labels.
Proof.
  intros H. unfold select_entries, selected. rewrite H.
  assert (E : grouping_active group None = false)
    by (unfold grouping_active; apply andb_false_r).
  rewrite E. reflexivity.
Qed.

(** X3.  A grouping takes effect only in grouped mode and only when it
    is not empty: in ungrouped mode, and with the empty list as
    grouping, the table is the one built without any grouping, so an
    empty grouping keeps every group instead of none. *)
Theorem grouping_inactive rf filename poi group grouping filters stat
    normalize scale :
  group = false \/ grouping = Some [] ->
  readFitInfoFromFile fitresult read_impacts_poi get_pulls_and_constraints
    re_match re_search translate_label
    rf filename poi group grouping filters stat normalize scale
  = readFitInfoFromFile fitresult read_impacts_poi get_pulls_and_constraints
      re_match re_search translate_label
      rf filename poi group None filters stat normalize scale.
Proof.
  intros H.
  assert (Hg : grouping_active group grouping = false).
  { destruct H as [-> | ->]; [reflexivity|].
    unfold grouping_active. apply andb_false_r. }
  unfold readFitInfoFromFile.
  destruct (read_impacts_poi rf group group stat poi normalize) as [i ls].
  rewrite (select_entries_inactive _ _ _ _ _ Hg). reflexivity.
Qed.
End Grouping.

(** ** A negative row limit *)




(** ** Which sort choices the table can serve *)

(** The columns that lines 405-416 read for a sort choice are in the
    table. *)
Definition sort_columns_present (s : string) (cols : list string) : bool :=
  if endswith s "diff"
  then inb (str_replace s "_diff" "") cols
       && inb (str_replace s "_diff" "" ++ "_ref") cols
  else if endswith s "both"
  then inb (str_replace s "_both" "") cols
       && inb (str_replace s "_both" "" ++ "_ref") cols
  else inb s cols.

Lemma get_col_cases (c : string) (df : DataFrame) :
  (exists vals, get_col c df = Ok vals) \/ get_col c df = Raise (KeyError c).
Proof.
  unfold get_col. destruct (inb c (columns df)); [|right; reflexivity].
  induction (rows df) as [|r rs IH]; simpl.
  - left. eexists. reflexivity.
  - destruct (r !! c) as [v|]; simpl; [|right; reflexivity].
    destruct IH as [[vals ->]| ->]; simpl.
    + left. eexists. reflexivity.
    + right. reflexivity.
Qed.

Lemma get_col_missing (c : string) (df : DataFrame) :
  inb c (columns df) = false -> get_col c df = Raise (KeyError c).
Proof. intros H. unfold get_col. rewrite H. reflexivity. Qed.

Lemma two_columns_missing {A} (k : string) (df : DataFrame)
    (f : list cell -> list cell -> result A) :
  inb k (columns df) && inb (k ++ "_ref") (columns df) = false ->
  exists e, (cur ← get_col k df; ref ← get_col (k ++ "_ref") df; f cur ref)
            = Raise (KeyError e).
Proof.
  intros H. destruct (inb k (columns df)) eqn:E; simpl in H.
  - destruct (get_col_cases k df) as [[vals ->]| ->].
    + rewrite bind_Ok, (get_col_missing _ _ H). eexists. reflexivity.
    + eexists. reflexivity.
  - rewrite (get_col_missing _ _ E). eexists. reflexivity.
Qed.

(** Sorting by a choice whose columns the table lacks ends in
    [KeyError]. *)
Lemma sort_stage_KeyError (s : string) (ascending : bool) (df : DataFrame) :
  s <> "" ->
  sort_columns_present s (columns df) = false ->
  exists k,
    (if nonempty (list_ascii_of_string s)
     then df ← add_sort_key s ascending df; sort_values s ascending df
     else Ok df) = Raise (KeyError k).
Proof.
  intros Hs H. destruct s as [|a s]; [congruence|]. simpl nonempty. cbv iota.
  unfold sort_columns_present in H. unfold add_sort_key.
  destruct (endswith (String a s) "diff").
  - destruct (two_columns_missing _ df
                (fun cur ref => diff ← col_zip F64.sub cur ref;
                                adiff ← col_map F64.abs diff;
                                set_col (str_replace (String a s) "_diff" ""
                                         ++ "_diff") adiff df) H)
      as [e He].
    exists e. rewrite He. reflexivity.
  - destruct (endswith (String a s) "both").
    + destruct (two_columns_missing _ df
                  (fun cur ref =>
                     both ← col_zip (row_pick (if ascending then F64.max
                                               else F64.min)) cur ref;
                     set_col (str_replace (String a s) "_both" "" ++ "_both")
                             both df) H)
        as [e He].
      exists e. rewrite He. reflexivity.
    + rewrite bind_Ok. unfold sort_values.
      rewrite (get_col_missing _ _ H). eexists. reflexivity.
Qed.

Lemma homogeneous_strs {A} (f : A -> string) (l : list A) :
  homogeneous (map (fun x => Str (f x)) l) = true.
Proof.
  unfold homogeneous. apply orb_true_intro. right.
  apply forallb_forall. intros c Hc. apply in_map_iff in Hc.
  destruct Hc as (x & <- & _). reflexivity.
Qed.

(** Sorting by a column that every row has, with numbers only or with
    strings only. *)
Lemma sort_stage_plain {X} (s : string) (ascending : bool)
    (cols : list string) (G : X -> gmap string cell) (h : X -> cell)
    (l : list X) :
  s <> "" -> endswith s "diff" = false -> endswith s "both" = false ->
  inb s cols = true ->
  (forall x, G x !! s = Some (h x)) ->
  homogeneous (map h l) = true ->
  (if nonempty (list_ascii_of_string s)
   then df ← add_sort_key s ascending (mkDF cols (map G l));
        sort_values s ascending df
   else Ok (mkDF cols (map G l)))
  = Ok (mkDF cols (isort (row_leb s ascending) (map G l))).
Proof.
  intros Hs Hd Hb Hc Hl Hh. destruct s as [|a s]; [congruence|].
  simpl nonempty. cbv iota. unfold add_sort_key. rewrite Hd, Hb, bind_Ok.
  unfold sort_values. rewrite (get_col_map _ _ _ h) by assumption.
  rewrite bind_Ok, Hh. reflexivity.
Qed.

(** ** The table before it is sorted *)

Definition presort_table (tl : gmap string string) (scale : F64.t)
    (g1 g2 : bool) (main : list entry) (ref : option (list entry))
  : DataFrame :=
  match ref with
  | None => mkDF (table_columns g1) (map (table_row tl scale g1) main)
  | Some l' =>
      mkDF (merged_columns g1 g2)
           (map (merged_row tl scale g1 g2)
                (joined_pairs (fun e => translate tl (e_label e))
                              (fun e => translate tl (e_label e)) main l'))
  end.


Lemma fillna_number (d : F64.t) (x : F64.t) :
  fillna (Num d) (Num x) = Num (if F64.is_nan x then d else x).
Proof. destruct x; reflexivity. Qed.

Lemma merged_label tl scale g1 g2 k a b :
  merged_row tl scale g1 g2 (k, a, b) !! "label" = Some (Str k).
Proof.
  rewrite merged_lookup by (destruct g1, g2; simpl; tauto).
  rewrite joined_label. reflexivity.
Qed.

Lemma joined_number tl scale g1 g2 p c :
  In c (merged_columns g1 g2) ->
  ~ In c ["label"; "impact_color"; "impact_color_ref"] ->
  exists x, joined_table_row tl scale g1 g2 p !! c = Some (Num x).
Proof.
  intros Hc Hn. destruct p as [[k a] b].
  destruct g1, g2; simpl in Hc;
    repeat (destruct Hc as [<-|Hc];
            [first [exfalso; apply Hn; simpl; tauto
                   |destruct a, b; eexists; reflexivity]|]);
    destruct Hc.
Qed.

Lemma merged_number tl scale g1 g2 p c :
  In c (merged_columns g1 g2) ->
  ~ In c ["label"; "impact_color"; "impact_color_ref"] ->
  exists x, merged_row tl scale g1 g2 p !! c = Some (Num x) /\
            F64.is_nan x = false.
Proof.
  intros Hc Hn. rewrite merged_lookup by exact Hc.
  destruct (joined_number tl scale g1 g2 p c Hc Hn) as [x ->].
  assert (Hd : default_value c = Num F64.zero).
  { unfold default_value. destruct (inb c _) eqn:E; [|reflexivity].
    apply inb_In in E. exfalso. apply Hn. simpl in *. tauto. }
  rewrite Hd. simpl. rewrite fillna_number. eexists. split; [reflexivity|].
  destruct x; reflexivity.
Qed.

Lemma sort_stage_numbers {X} (s : string) (ascending : bool)
    (cols : list string) (G : X -> gmap string cell) (l : list X) :
  s <> "" -> endswith s "diff" = false -> endswith s "both" = false ->
  inb s cols = true ->
  (forall x, exists v, G x !! s = Some (Num v)) ->
  (if nonempty (list_ascii_of_string s)
   then df ← add_sort_key s ascending (mkDF cols (map G l));
        sort_values s ascending df
   else Ok (mkDF cols (map G l)))
  = Ok (mkDF cols (isort (row_leb s ascending) (map G l))).
Proof.
  intros Hs Hd Hb Hc Hl.
  apply (sort_stage_plain s ascending cols G
           (fun x => Num (num_at s (G x)))); try assumption.
  - intros x. destruct (Hl x) as [v Hv]. unfold num_at. rewrite Hv.
    reflexivity.
  - apply (homogeneous_nums (fun x => num_at s (G x))).
Qed.

Lemma sort_stage_strings {X} (s : string) (ascending : bool)
    (cols : list string) (G : X -> gmap string cell) (f : X -> string)
    (l : list X) :
  s <> "" -> endswith s "diff" = false -> endswith s "both" = false ->
  inb s cols = true ->
  (forall x, G x !! s = Some (Str (f x))) ->
  (if nonempty (list_ascii_of_string s)
   then df ← add_sort_key s ascending (mkDF cols (map G l));
        sort_values s ascending df
   else Ok (mkDF cols (map G l)))
  = Ok (mkDF cols (isort (row_leb s ascending) (map G l))).
Proof.
  intros Hs Hd Hb Hc Hl.
  apply (sort_stage_plain s ascending cols G (fun x => Str (f x)));
    try assumption.
  apply homogeneous_strs.
Qed.

(** The numeric columns of a row of the builder. *)
Lemma table_row_number tl scale group e c :
  In c (table_columns group) ->
  ~ In c ["label"; "impact_color"] ->
  exists x, table_row tl scale group e !! c = Some (Num x).
Proof.
  intros Hc Hn.
  destruct group; simpl in Hc;
    repeat (destruct Hc as [<-|Hc];
            [first [exfalso; apply Hn; simpl; tauto
                   |eexists; reflexivity]|]);
    destruct Hc.
Qed.

(** Sorting the table of lines 389-401 by one of its columns. *)
Lemma presort_sorted tl scale g1 g2 main ref (s : string) (ascending : bool) :
  let T := presort_table tl scale g1 g2 main ref in
  s <> "" -> endswith s "diff" = false -> endswith s "both" = false ->
  In s (columns T) ->
  ~ In s ["impact_color"; "impact_color_ref"] ->
  (if nonempty (list_ascii_of_string s)
   then df ← add_sort_key s ascending T; sort_values s ascending df
   else Ok T)
  = Ok (mkDF (columns T) (isort (row_leb s ascending) (rows T))).
Proof.
  intros T Hs Hd Hb Hc Hn. subst T. destruct ref as [l'|]; simpl in *.
  - destruct (String.eqb_spec s "label") as [->|Hl].
    + apply (sort_stage_strings "label" ascending _ _
               (fun p => fst (fst p))); try assumption.
      * apply inb_In. exact Hc.
      * intros [[k a] b]. apply merged_label.
    + apply sort_stage_numbers; try assumption.
      * apply inb_In. exact Hc.
      * intros p. destruct (merged_number tl scale g1 g2 p s Hc) as (x & Hx & _).
        -- intros [E|H]; [congruence|]. apply Hn. exact H.
        -- exists x. exact Hx.
  - destruct (String.eqb_spec s "label") as [->|Hl].
    + apply (sort_stage_strings "label" ascending _ _
               (fun e => translate tl (e_label e))); try assumption.
      * apply inb_In. exact Hc.
      * intros e. apply row_label.
    + apply sort_stage_numbers; try assumption.
      * apply inb_In. exact Hc.
      * intros e. apply table_row_number; [exact Hc|].
        intros [E|[E|[]]]; [congruence|]. apply Hn. left. exact E.
Qed.


(** Lines 405-408 on a table with numbers in both columns. *)
Lemma add_sort_key_diff (col : string) (ascending : bool)
    (cols : list string) (rs : list (gmap string cell)) :
  In col ["pull"; "abspull"; "constraint"; "absimpact"] ->
  inb col cols = true -> inb (col ++ "_ref") cols = true ->
  (forall r, In r rs ->
             exists x y, r !! col = Some (Num x) /\
                         r !! (col ++ "_ref") = Some (Num y)) ->
  add_sort_key (col ++ "_diff") ascending (mkDF cols rs)
  = Ok (mkDF (add_column (col ++ "_diff") cols)
          (map (fun r => <[col ++ "_diff" :=
                             Num (F64.abs (F64.sub (num_at col r)
                                             (num_at (col ++ "_ref") r)))]> r)
               rs)).
Proof.
  intros Hcol Hc Hr Hrows.
  destruct (sort_column_names col Hcol) as (E1 & E2 & _).
  unfold add_sort_key. rewrite E1, E2.
  rewrite (get_col_rows col cols (fun r => Num (num_at col r)) rs Hc).
  2:{ intros r Hin. destruct (Hrows r Hin) as (x & y & Hx & Hy).
      unfold num_at. rewrite Hx. reflexivity. }
  rewrite bind_Ok.
  rewrite (get_col_rows (col ++ "_ref") cols
             (fun r => Num (num_at (col ++ "_ref") r)) rs Hr).
  2:{ intros r Hin. destruct (Hrows r Hin) as (x & y & Hx & Hy).
      unfold num_at. rewrite Hy. reflexivity. }
  rewrite bind_Ok, col_zip_map, bind_Ok, col_map_map, bind_Ok.
  apply (set_col_rows (col ++ "_diff") cols
           (fun r => Num (F64.abs (F64.sub (num_at col r)
                                     (num_at (col ++ "_ref") r))))).
Qed.

(** Sorting by a choice that compares with the reference, on a table
    with numbers in both columns. *)
Lemma sort_stage_keyed (col suf : string) (ascending : bool)
    (cols : list string) (rs : list (gmap string cell)) :
  In col ["pull"; "abspull"; "constraint"; "absimpact"] ->
  suf = "_diff" \/ suf = "_both" ->
  inb col cols = true -> inb (col ++ "_ref") cols = true ->
  (forall r, In r rs ->
             exists x y, r !! col = Some (Num x) /\
                         r !! (col ++ "_ref") = Some (Num y)) ->
  exists rs',
    (if nonempty (list_ascii_of_string (col ++ suf))
     then df ← add_sort_key (col ++ suf) ascending (mkDF cols rs);
          sort_values (col ++ suf) ascending df
     else Ok (mkDF cols rs))
    = Ok (mkDF (add_column (col ++ suf) cols) rs').
Proof.
  intros Hcol Hsuf Hc Hr Hrows.
  assert (Hne : nonempty (list_ascii_of_string (col ++ suf)) = true).
  { simpl in Hcol.
    destruct Hsuf as [-> | ->];
      repeat (destruct Hcol as [<-|Hcol]; [reflexivity|]); destruct Hcol. }
  rewrite Hne.
  destruct (sort_column_names col Hcol) as (_ & _ & E1 & E2 & E3).
  destruct Hsuf as [-> | ->].
  - destruct (keyed_sort (fun x y => F64.abs (F64.sub x y)) col
                (col ++ "_diff") ascending cols rs Hc Hr Hrows) as [_ Hs].
    rewrite add_sort_key_diff by assumption. rewrite bind_Ok.
    cbv zeta in Hs. rewrite Hs. eexists. reflexivity.
  - destruct (keyed_sort
                (row_pick (if ascending then F64.max else F64.min)) col
                (col ++ "_both") ascending cols rs Hc Hr Hrows) as [Hk Hs].
    unfold add_sort_key at 1. rewrite E1, E2, E3. rewrite Hk, bind_Ok.
    cbv zeta in Hs. rewrite Hs. eexists. reflexivity.
Qed.

Lemma Sorted_map_in {A B} (R : A -> A -> Prop) (Q : B -> B -> Prop)
    (f : A -> B) (l : list A) :
  (forall x y, In x l -> In y l -> R x y -> Q (f x) (f y)) ->
  Sorted R l -> Sorted Q (map f l).
Proof.
  intros H HS. induction HS as [|a l HS IH Hhd]; simpl; constructor.
  - apply IH. intros x y Hx Hy. apply H; right; assumption.
  - destruct Hhd as [|b l Hab]; simpl; constructor.
    apply H; [left; reflexivity|right; left; reflexivity|exact Hab].
Qed.

Lemma Sorted_drop {A} (R : A -> A -> Prop) (n : nat) (l : list A) :
  Sorted R l -> Sorted R (drop n l).
Proof.
  revert l. induction n as [|n IH]; intros l HS; [rewrite drop_0; exact HS|].
  destruct l as [|a l]; [constructor|]. simpl. apply IH.
  inversion HS. assumption.
Qed.

Lemma truncate_Sorted (R : gmap string cell -> gmap string cell -> Prop)
    (num : option Z) (df : DataFrame) :
  Sorted R (rows df) -> Sorted R (rows (truncate num df)).
Proof.
  intros H. unfold truncate. destruct num as [n|]; [|exact H].
  destruct (negb (n =? 0)%Z && (n <? df_size df)%Z); [|exact H].
  simpl. unfold py_tail. apply Sorted_drop. exact H.
Qed.

Lemma abs_nan (x : F64.t) : F64.is_nan (F64.abs x) = F64.is_nan x.
Proof. destruct x; reflexivity. Qed.

(** The rows of a table sorted by a column of numbers none of which is
    missing are in the order of the numbers, also after [fillna(0)] and
    after truncation. *)
Lemma sorted_numbers (s : string) (ascending : bool) (num : option Z)
    (cols : list string) (rs : list (gmap string cell)) :
  (forall r, In r rs -> exists x, r !! s = Some (Num x) /\
                                  F64.is_nan x = false) ->
  Sorted (fun r1 r2 =>
            exists x y,
              r1 !! s = Some (Num x) /\ r2 !! s = Some (Num y) /\
              F64.is_nan x = false /\ F64.is_nan y = false /\
              (if ascending then F64.leb x y else F64.leb y x) = true)
         (rows (truncate num
                  (fillna0 (mkDF cols (isort (row_leb s ascending) rs))))).
Proof.
  intros Hrows. apply truncate_Sorted. simpl.
  apply (Sorted_map_in (fun r1 r2 => row_leb s ascending r1 r2 = true)).
  - intros r1 r2 H1 H2 Hle.
    assert (Hin : forall r, In r (isort (row_leb s ascending) rs) -> In r rs).
    { intros r H. eapply Permutation_in; [|exact H].
      symmetry. apply isort_perm. }
    destruct (Hrows r1 (Hin r1 H1)) as (x & Hx & Nx).
    destruct (Hrows r2 (Hin r2 H2)) as (y & Hy & Ny).
    exists x, y. rewrite !lookup_fmap, Hx, Hy. simpl.
    rewrite !fillna_number, Nx, Ny.
    repeat split; try reflexivity.
    unfold row_leb, row_key in Hle. rewrite Hx, Hy in Hle. simpl in Hle.
    unfold key_leb in Hle.
    assert (Ix : isna (Num x) = false) by (destruct x; try reflexivity; discriminate).
    assert (Iy : isna (Num y) = false) by (destruct y; try reflexivity; discriminate).
    rewrite Ix, Iy in Hle. destruct ascending; exact Hle.
  - apply (isort_Sorted (row_leb s ascending)). apply row_leb_total.
Qed.


Section SortFacts.
Variable fitresult : Type.
Variable read_impacts_poi :
  fitresult -> bool -> bool -> F64.t -> option string -> bool ->
  list F64.t * list string.
Variable get_pulls_and_constraints :
  string -> list string -> list F64.t * list F64.t * list F64.t.
Variable re_match : string -> string -> bool.
Variable re_search : string -> string -> bool.
Variable translate_label : gmap string string.
Variable channel_info : fitresult -> gmap string channel.
Variable mev_value : string -> result F64.t.

Hypothesis read_lengths : forall rf group add_total stat poi normalize,
  length (snd (read_impacts_poi rf group add_total stat poi normalize))
  = length (fst (read_impacts_poi rf group add_total stat poi normalize)).
Hypothesis pulls_lengths : forall filename labels,
  length (fst (fst (get_pulls_and_constraints filename labels)))
  = length labels /\
  length (snd (fst (get_pulls_and_constraints filename labels)))
  = length labels /\
  length (snd (get_pulls_and_constraints filename labels)) = length labels.

Local Abbreviation closed :=
  (readFit_closed fitresult read_impacts_poi get_pulls_and_constraints
                  re_match re_search translate_label read_lengths
                  pulls_lengths).
Local Abbreviation entries :=
  (table_entries fitresult read_impacts_poi get_pulls_and_constraints
                 re_match re_search translate_label).
Local Abbreviation build :=
  (build_table fitresult read_impacts_poi get_pulls_and_constraints
               re_match re_search translate_label).
Local Abbreviation plots :=
  (producePlots fitresult read_impacts_poi get_pulls_and_constraints
                re_match re_search translate_label channel_info mev_value).

Local Abbreviation all_read :=
  (tables_read fitresult read_impacts_poi re_match).

(** Lines 389-401 in closed form: where both tables are read, the sort
    stage works on the table of the entries of the fit result, joined
    with those of the reference where there is one. *)
Lemma build_table_closed rf args poi group normalize fr_ref grouping scale :
  let g1 := group && is_mode args "output" in
  let stat100 := F64.div (stat args) (F64.of_Z 100) in
  let main := entries rf (inputFile args) poi g1
                      (if g1 then grouping else None) [] stat100 normalize in
  let ref := (fun r => entries r (referenceFile args) poi group grouping []
                               stat100 normalize) <$> fr_ref in
  build rf args poi group normalize fr_ref grouping scale
  = if all_read rf args poi group normalize fr_ref grouping
    then df ← (if nonempty (list_ascii_of_string (sort args))
               then df ← add_sort_key (sort args) (ascending args)
                           (presort_table translate_label scale g1 group
                                          main ref);
                    sort_values (sort args) (ascending args) df
               else Ok (presort_table translate_label scale g1 group
                                      main ref));
         Ok (fillna0 df)
    else Raise AttributeError.
Proof.
  cbv zeta. unfold build_table, tables_read.
  destruct (group && is_mode args "output") eqn:Hg; simpl negb; cbv iota;
    rewrite closed;
    (destruct (labels_read _ _ _ rf _ _ _ _ _ _); [|reflexivity]);
    rewrite bind_Ok, andb_true_l;
    (destruct fr_ref as [ref|]; simpl fmap;
     [rewrite closed;
      (destruct (labels_read _ _ _ ref _ _ _ _ _ _); [|reflexivity]);
      rewrite bind_Ok, merge_reference_closed, bind_Ok|
      rewrite bind_Ok]); reflexivity.
Qed.

Lemma build_table_presort rf args poi group normalize fr_ref grouping scale :
  all_read rf args poi group normalize fr_ref grouping = true ->
  let g1 := group && is_mode args "output" in
  let stat100 := F64.div (stat args) (F64.of_Z 100) in
  let main := entries rf (inputFile args) poi g1
                      (if g1 then grouping else None) [] stat100 normalize in
  let ref := (fun r => entries r (referenceFile args) poi group grouping []
                               stat100 normalize) <$> fr_ref in
  build rf args poi group normalize fr_ref grouping scale
  = (df ← (if nonempty (list_ascii_of_string (sort args))
           then df ← add_sort_key (sort args) (ascending args)
                       (presort_table translate_label scale g1 group main ref);
                sort_values (sort args) (ascending args) df
           else Ok (presort_table translate_label scale g1 group main ref));
     Ok (fillna0 df)).
Proof.
  intros H. cbv zeta. rewrite build_table_closed. cbv zeta. rewrite H.
  reflexivity.
Qed.

Lemma build_table_unread rf args poi group normalize fr_ref grouping scale :
  all_read rf args poi group normalize fr_ref grouping = false ->
  build rf args poi group normalize fr_ref grouping scale
  = Raise AttributeError.
Proof.
  intros H. rewrite build_table_closed. cbv zeta. rewrite H. reflexivity.
Qed.

(** The grouped table of output mode is always read. *)
Lemma tables_read_grouped rf args poi normalize fr_ref grouping :
  is_mode args "output" = true ->
  all_read rf args poi true normalize fr_ref grouping = true.
Proof.
  intros H. unfold tables_read. rewrite H. destruct fr_ref; reflexivity.
Qed.

Lemma presort_columns scale g1 g2 main ref :
  columns (presort_table translate_label scale g1 g2 main ref)
  = match ref with
    | None => table_columns g1
    | Some _ => merged_columns g1 g2
    end.
Proof. destruct ref; reflexivity. Qed.

Lemma plots_unread rf args poi group normalize fr_ref grouping scale :
  poi_scale fitresult channel_info mev_value rf poi = Ok scale ->
  all_read rf args poi group normalize fr_ref grouping = false ->
  plots rf args poi group normalize fr_ref grouping = Raise AttributeError.
Proof.
  intros Hscale Hun. unfold producePlots.
  rewrite Hscale, bind_Ok, build_table_unread by exact Hun. reflexivity.
Qed.

Lemma plots_KeyError rf args poi group normalize fr_ref grouping scale :
  poi_scale fitresult channel_info mev_value rf poi = Ok scale ->
  all_read rf args poi group normalize fr_ref grouping = true ->
  sort args <> "" ->
  (forall g1 g2,
      g1 = group && is_mode args "output" -> g2 = group ->
      sort_columns_present (sort args)
        (match fr_ref with
         | None => table_columns g1
         | Some _ => merged_columns g1 g2
         end) = false) ->
  exists k,
    plots rf args poi group normalize fr_ref grouping = Raise (KeyError k).
Proof.
  intros Hscale Hread Hs Hcols. unfold producePlots.
  rewrite Hscale, bind_Ok, build_table_presort by exact Hread. cbv zeta.
  match goal with
  | |- context [add_sort_key _ _ ?T] =>
      destruct (sort_stage_KeyError (sort args) (ascending args) T Hs)
        as [k Hk]
  end.
  - rewrite presort_columns. specialize (Hcols _ _ eq_refl eq_refl).
    destruct fr_ref; exact Hcols.
  - exists k. rewrite Hk. reflexivity.
Qed.

(** X4.  Without a reference file, no sort choice that compares with
    the reference ([<col>_diff], [<col>_ref], [<col>_both]) gets a
    table plotted, in either mode and for grouped and ungrouped tables
    alike: once the table is read, [producePlots] ends in [KeyError],
    the table having no [<col>_ref] column; where line 292 ends the
    reading, it ends in [AttributeError] before. *)
Theorem sort_without_reference rf args poi group normalize grouping scale :
  In (sort args) sort_choices ->
  endswith (sort args) "_diff" || endswith (sort args) "_ref"
  || endswith (sort args) "_both" = true ->
  poi_scale fitresult channel_info mev_value rf poi = Ok scale ->
  (tables_read fitresult read_impacts_poi re_match
               rf args poi group normalize None grouping = true ->
   exists k,
     producePlots fitresult read_impacts_poi get_pulls_and_constraints
       re_match re_search translate_label channel_info mev_value
       rf args poi group normalize None grouping = Raise (KeyError k)) /\
  (tables_read fitresult read_impacts_poi re_match
               rf args poi group normalize None grouping = false ->
   producePlots fitresult read_impacts_poi get_pulls_and_constraints
     re_match re_search translate_label channel_info mev_value
     rf args poi group normalize None grouping = Raise AttributeError).
Proof.
  intros Hin Hsuf Hscale.
  split; [|apply (plots_unread _ _ _ _ _ _ _ scale Hscale)]. intros Hread.
  apply (plots_KeyError _ _ _ _ _ None _ scale Hscale Hread).
  - intros E. rewrite E in Hin. simpl in Hin.
    repeat (destruct Hin as [Hin|Hin]; [discriminate|]). exact Hin.
  - intros g1 g2 _ _. remember (sort args) as s. clear - Hin Hsuf.
    simpl in Hin.
    repeat (destruct Hin as [<-|Hin];
            [first [discriminate Hsuf | destruct g1; reflexivity]|]).
    destruct Hin.
Qed.

(** X5.  With the choices [label_diff], [label_ref] and [label_both],
    which the parser accepts, no table is plotted, with or without a
    reference file: once the tables are read, [producePlots] ends in
    [KeyError], since the join is on the label and no table has a
    [label_ref] column; where line 292 ends the reading, it ends in
    [AttributeError] before. *)
Theorem label_reference_sorts rf args poi group normalize fr_ref grouping
    scale :
  In (sort args) ["label_diff"; "label_ref"; "label_both"] ->
  poi_scale fitresult channel_info mev_value rf poi = Ok scale ->
  (tables_read fitresult read_impacts_poi re_match
               rf args poi group normalize fr_ref grouping = true ->
   exists k,
     producePlots fitresult read_impacts_poi get_pulls_and_constraints
       re_match re_search translate_label channel_info mev_value
       rf args poi group normalize fr_ref grouping = Raise (KeyError k)) /\
  (tables_read fitresult read_impacts_poi re_match
               rf args poi group normalize fr_ref grouping = false ->
   producePlots fitresult read_impacts_poi get_pulls_and_constraints
     re_match re_search translate_label channel_info mev_value
     rf args poi group normalize fr_ref grouping = Raise AttributeError).
Proof.
  intros Hin Hscale.
  split; [|apply (plots_unread _ _ _ _ _ _ _ scale Hscale)]. intros Hread.
  apply (plots_KeyError _ _ _ _ _ _ _ scale Hscale Hread).
  - intros E. rewrite E in Hin. simpl in Hin.
    repeat (destruct Hin as [Hin|Hin]; [discriminate|]). exact Hin.
  - intros g1 g2 _ _. remember (sort args) as s. clear - Hin.
    simpl in Hin.
    repeat (destruct Hin as [<-|Hin];
            [destruct fr_ref, g1, g2; reflexivity|]).
    destruct Hin.
Qed.

(** X6.  For the grouped table of output mode, every sort choice on
    pull, abspull or constraint (plain or compared with the reference)
    makes [producePlots] end in [KeyError], with or without a reference
    file: the grouped table has none of the pull columns. *)
Theorem grouped_pull_sorts rf args poi normalize fr_ref grouping scale :
  output_mode args = Some "output" ->
  In (sort args) sort_choices ->
  startswith (sort args) "pull" || startswith (sort args) "abspull"
  || startswith (sort args) "constraint" = true ->
  poi_scale fitresult channel_info mev_value rf poi = Ok scale ->
  exists k,
    producePlots fitresult read_impacts_poi get_pulls_and_constraints
      re_match re_search translate_label channel_info mev_value
      rf args poi true normalize fr_ref grouping = Raise (KeyError k).
Proof.
  intros Hmode Hin Hpre Hscale.
  assert (Hout : is_mode args "output" = true)
    by (unfold is_mode; rewrite Hmode; reflexivity).
  apply (plots_KeyError _ _ _ _ _ _ _ scale Hscale
           (tables_read_grouped _ _ _ _ _ _ Hout)).
  - intros E. rewrite E in Hin. simpl in Hin.
    repeat (destruct Hin as [Hin|Hin]; [discriminate|]). exact Hin.
  - intros g1 g2 -> ->. unfold is_mode. rewrite Hmode.
    remember (sort args) as s. clear - Hin Hpre.
    simpl in Hin.
    repeat (destruct Hin as [<-|Hin];
            [first [discriminate Hpre | destruct fr_ref; reflexivity]|]).
    destruct Hin.
Qed.



(** X8.  With a reference file, once both tables are read, the choices
    that compare with the reference are served: [absimpact_diff],
    [absimpact_ref] and [absimpact_both] always, those of pull, abspull
    and constraint in ungrouped mode; the table returned has the sort
    column. *)
Theorem reference_sort_total rf ref args poi group normalize grouping scale
    (c suf : string) :
  In suf ["_diff"; "_ref"; "_both"] ->
  c = "absimpact" \/
  (group = false /\ In c ["pull"; "abspull"; "constraint"]) ->
  sort args = c ++ suf ->
  tables_read fitresult read_impacts_poi re_match
              rf args poi group normalize (Some ref) grouping = true ->
  exists df,
    build_table fitresult read_impacts_poi get_pulls_and_constraints
      re_match re_search translate_label
      rf args poi group normalize (Some ref) grouping scale = Ok df /\
    In (sort args) (columns df).
Proof.
  intros Hsuf Hc Hsort Hread. clear channel_info mev_value.
  rewrite build_table_presort by exact Hread. cbv zeta. simpl fmap.
  set (g1 := group && is_mode args "output").
  set (main := table_entries _ _ _ _ _ _ rf _ _ _ _ _ _ _).
  set (other := table_entries _ _ _ _ _ _ ref _ _ _ _ _ _ _).
  assert (Hg : g1 = group \/ (g1 = false /\ group = true)).
  { subst g1. destruct group; simpl; [|tauto].
    destruct (is_mode args "output"); tauto. }
  assert (Hcol : In c ["pull"; "abspull"; "constraint"; "absimpact"]).
  { destruct Hc as [->|[_ Hc]]; simpl in *; tauto. }
  assert (Hcols : In c (merged_columns g1 group) /\
                  In (c ++ "_ref") (merged_columns g1 group)).
  { destruct Hc as [->|[-> Hc]].
    - destruct Hg as [->|[-> ->]]; [destruct group|]; simpl; tauto.
    - destruct Hg as [->|[_ ?]]; [|discriminate]. simpl in Hc.
      repeat (destruct Hc as [<-|Hc]; [simpl; tauto|]). destruct Hc. }
  destruct Hcols as [Hin Hinr]. rewrite Hsort.
  assert (Hnc : ~ In c ["label"; "impact_color"; "impact_color_ref"]).
  { simpl in Hcol. simpl. intros H.
    repeat (destruct Hcol as [<-|Hcol];
            [repeat (destruct H as [H|H]; [discriminate|]); exact H|]).
    exact Hcol. }
  assert (Hncr : ~ In (c ++ "_ref")
                   ["label"; "impact_color"; "impact_color_ref"]).
  { simpl in Hcol. simpl. intros H.
    repeat (destruct Hcol as [<-|Hcol];
            [repeat (destruct H as [H|H]; [discriminate|]); exact H|]).
    exact Hcol. }
  simpl in Hsuf. destruct Hsuf as [<-|[<-|[<-|[]]]].
  - destruct (sort_stage_keyed c "_diff" (ascending args)
                (merged_columns g1 group)
                (map (merged_row translate_label scale g1 group)
                     (joined_pairs
                        (fun e => translate translate_label (e_label e))
                        (fun e => translate translate_label (e_label e))
                        main other)))
      as [rs' Hs]; try assumption; try tauto; try (apply inb_In; assumption).
    + intros r Hr. apply in_map_iff in Hr. destruct Hr as (p & <- & _).
      destruct (merged_number translate_label scale g1 group p c Hin Hnc)
        as (x & Hx & _).
      destruct (merged_number translate_label scale g1 group p _ Hinr Hncr)
        as (y & Hy & _).
      exists x, y. split; assumption.
    + unfold presort_table. rewrite Hs, bind_Ok. eexists.
      split; [reflexivity|]. simpl. apply inb_In, inb_add_column.
  - rewrite presort_sorted.
    + rewrite bind_Ok. eexists. split; [reflexivity|]. simpl. exact Hinr.
    + simpl in Hcol.
      repeat (destruct Hcol as [<-|Hcol]; [discriminate|]). destruct Hcol.
    + simpl in Hcol.
      repeat (destruct Hcol as [<-|Hcol]; [reflexivity|]). destruct Hcol.
    + simpl in Hcol.
      repeat (destruct Hcol as [<-|Hcol]; [reflexivity|]). destruct Hcol.
    + simpl. exact Hinr.
    + intros H. apply Hncr. simpl in *. tauto.
  - destruct (sort_stage_keyed c "_both" (ascending args)
                (merged_columns g1 group)
                (map (merged_row translate_label scale g1 group)
                     (joined_pairs
                        (fun e => translate translate_label (e_label e))
                        (fun e => translate translate_label (e_label e))
                        main other)))
      as [rs' Hs]; try assumption; try tauto; try (apply inb_In; assumption).
    + intros r Hr. apply in_map_iff in Hr. destruct Hr as (p & <- & _).
      destruct (merged_number translate_label scale g1 group p c Hin Hnc)
        as (x & Hx & _).
      destruct (merged_number translate_label scale g1 group p _ Hinr Hncr)
        as (y & Hy & _).
      exists x, y. split; assumption.
    + unfold presort_table. rewrite Hs, bind_Ok. eexists.
      split; [reflexivity|]. simpl. apply inb_In, inb_add_column.
Qed.

(** X9.  With the default sort by absimpact, in output mode, once the
    tables are read, a table is plotted and its rows are in the order of
    their absimpact, rising when ascending and falling otherwise, also
    after the row limit: with a reference file always, without one
    provided that no scaled impact is NaN. *)
Theorem default_sort_order rf args poi group normalize fr_ref grouping scale :
  sort args = "absimpact" ->
  output_mode args = Some "output" ->
  poi_scale fitresult channel_info mev_value rf poi = Ok scale ->
  tables_read fitresult read_impacts_poi re_match
              rf args poi group normalize fr_ref grouping = true ->
  (fr_ref = None ->
   forall x,
     In x (fst (read_impacts_poi rf group group
                  (F64.div (stat args) (F64.of_Z 100)) poi normalize)) ->
     F64.is_nan (F64.mul x scale) = false) ->
  exists df,
    producePlots fitresult read_impacts_poi get_pulls_and_constraints
      re_match re_search translate_label channel_info mev_value
      rf args poi group normalize fr_ref grouping = Ok (Some df) /\
    Sorted (fun r1 r2 =>
              exists x y,
                r1 !! "absimpact" = Some (Num x) /\
                r2 !! "absimpact" = Some (Num y) /\
                F64.is_nan x = false /\ F64.is_nan y = false /\
                (if ascending args then F64.leb x y else F64.leb y x) = true)
           (rows df).
Proof.
  intros Hsort Hmode Hscale Hread Hnan.
  assert (Hout : is_mode args "output" = true)
    by (unfold is_mode; rewrite Hmode; reflexivity).
  assert (Hint : is_mode args "interactive" = false)
    by (unfold is_mode; rewrite Hmode; reflexivity).
  unfold producePlots.
  rewrite Hscale, bind_Ok, build_table_presort by exact Hread. cbv zeta.
  rewrite Hout, andb_true_r, Hint, Hsort.
  set (main := table_entries _ _ _ _ _ _ rf _ _ _ _ _ _ _).
  rewrite presort_sorted; try reflexivity; try discriminate.
  - rewrite !bind_Ok. eexists. split; [reflexivity|].
    apply sorted_numbers. intros r Hr.
    destruct fr_ref as [ref|]; simpl in Hr; apply in_map_iff in Hr;
      destruct Hr as (p & <- & Hp).
    + apply merged_number; [|simpl; intros [E|[E|[E|[]]]]; discriminate].
      apply merged_columns_left. destruct group; simpl; tauto.
    + exists (F64.abs (F64.mul (e_impact p) scale)).
      split; [apply (row_absimpact translate_label)|].
      rewrite abs_nan. apply (Hnan eq_refl).
      assert (Hpair : In (e_impact p, e_label p)
                         (map (fun e => (e_impact e, e_label e)) main)).
      { apply in_map_iff. exists p. split; [reflexivity|exact Hp]. }
      subst main.
      rewrite (table_entries_pairs fitresult read_impacts_poi
                 get_pulls_and_constraints re_match re_search
                 translate_label pulls_lengths) in Hpair.
      apply filter_In in Hpair. destruct Hpair as [Hpair _].
      apply (in_map fst) in Hpair.
      pose proof (read_lengths rf group group
                    (F64.div (stat args) (F64.of_Z 100)) poi normalize) as Hl.
      destruct (zip_fst_snd _ _ Hl) as [E _]. rewrite E in Hpair.
      exact Hpair.
  - rewrite presort_columns.
    destruct fr_ref; [apply merged_columns_left|]; destruct group; simpl; tauto.
  - simpl. intros [E|[E|[]]]; discriminate.
Qed.


End SortFacts.

(** * The table that is sorted when there is a reference *)

(** ** What a row of the join holds *)




Section JoinedCells.
Variable translate_label : gmap string string.
Variable scale : F64.t.

Local Abbreviation joined := (joined_table_row translate_label scale).
Local Abbreviation merged := (merged_row translate_label scale).
Local Abbreviation trow := (table_row translate_label scale).









End JoinedCells.


Section ReferenceFacts.
Variable fitresult : Type.
Variable read_impacts_poi :
  fitresult -> bool -> bool -> F64.t -> option string -> bool ->
  list F64.t * list string.
Variable get_pulls_and_constraints :
  string -> list string -> list F64.t * list F64.t * list F64.t.
Variable re_match : string -> string -> bool.
Variable re_search : string -> string -> bool.
Variable translate_label : gmap string string.

Hypothesis read_lengths : forall rf group add_total stat poi normalize,
  length (snd (read_impacts_poi rf group add_total stat poi normalize))
  = length (fst (read_impacts_poi rf group add_total stat poi normalize)).
Hypothesis pulls_lengths : forall filename labels,
  length (fst (fst (get_pulls_and_constraints filename labels)))
  = length labels /\
  length (snd (fst (get_pulls_and_constraints filename labels)))
  = length labels /\
  length (snd (get_pulls_and_constraints filename labels)) = length labels.

Local Abbreviation readFit :=
  (readFitInfoFromFile fitresult read_impacts_poi get_pulls_and_constraints
                       re_match re_search translate_label).
Local Abbreviation build :=
  (build_table fitresult read_impacts_poi get_pulls_and_constraints
               re_match re_search translate_label).
Local Abbreviation entries :=
  (table_entries fitresult read_impacts_poi get_pulls_and_constraints
                 re_match re_search translate_label).
Local Abbreviation all_read :=
  (tables_read fitresult read_impacts_poi re_match).
Local Abbreviation lab :=
  (fun e : entry => translate translate_label (e_label e)).




(** *** The sort keys that compare with the reference *)






End ReferenceFacts.

(** ** The join and the sort keys on the sample fit result *)







(** ** The further theorems on the sample fit result *)

Lemma table_schema_witness :
  sample_table sample_fit (Some "a") false ["zzz"] = Raise AttributeError /\
  exists df,
    sample_table sample_fit None false [] = Ok df /\
    length (columns df) = 9 /\ length (rows df) = 3.
Proof.
  split.
  - apply (table_schema sample_file sample_read sample_pulls sample_match
             sample_search ∅ sample_read_lengths sample_pulls_lengths
             sample_fit "fit.hdf5" (Some "a") false None ["zzz"] F64.zero
             false (F64.of_Z 2)); try reflexivity.
    repeat constructor.
  - destruct (table_schema sample_file sample_read sample_pulls sample_match
                sample_search ∅ sample_read_lengths sample_pulls_lengths
                sample_fit "fit.hdf5" None false None [] F64.zero false
                (F64.of_Z 2)) as [_ H].
    destruct H as (df & E & Hc & _ & Hl); [right; left; reflexivity|].
    exists df. split; [exact E|]. rewrite Hc, Hl. split; reflexivity.
Defined.

Lemma impact_color_rule_witness :
  sample_table sample_fit None false [] = Ok sample_ungrouped /\
  Forall (fun r : gmap string cell =>
            r !! "impact_color" = Some (Str "#e41a1c") <->
            exists x, r !! "impact" = Some (Num x) /\
                      F64.ltb F64.zero x = true)
         (rows sample_ungrouped).
Proof.
  split; [exact sample_ungrouped_eq|].
  apply List.Forall_forall. intros r Hr.
  destruct (impact_color_rule sample_file sample_read sample_pulls
              sample_match sample_search ∅ sample_read_lengths
              sample_pulls_lengths sample_fit "fit.hdf5" None false None []
              F64.zero false (F64.of_Z 2) sample_ungrouped
              sample_ungrouped_eq r Hr) as (x & Hx & _ & Hred).
  split.
  - intros Hc. exists x. split; [exact Hx|]. apply Hred. exact Hc.
  - intros (y & Hy & Hpos). apply Hred. split; [reflexivity|].
    rewrite Hx in Hy. injection Hy as <-. exact Hpos.
Defined.

Lemma grouping_inactive_witness :
  readFitInfoFromFile sample_file sample_read sample_pulls sample_match
    sample_search ∅ sample_fit "fit.hdf5" None true (Some []) []
    F64.zero false F64.one
  = readFitInfoFromFile sample_file sample_read sample_pulls sample_match
      sample_search ∅ sample_fit "fit.hdf5" None true None []
      F64.zero false F64.one.
Proof.
  apply (grouping_inactive sample_file sample_read sample_pulls sample_match
           sample_search ∅ sample_fit "fit.hdf5" None true (Some []) []
           F64.zero false F64.one).
  right. reflexivity.
Defined.

Lemma sort_without_reference_witness :
  exists k,
    sample_plots sample_channels (sample_args "pull_diff" None) None None
    = Raise (KeyError k).
Proof.
  destruct (sort_without_reference sample_file sample_read sample_pulls
              sample_match sample_search ∅ sample_channels sample_mev
              sample_read_lengths sample_pulls_lengths sample_fit
              (sample_args "pull_diff" None) None false false None F64.one)
    as [H _].
  - simpl. tauto.
  - reflexivity.
  - reflexivity.
  - apply H. reflexivity.
Defined.

Lemma label_reference_sorts_witness :
  exists k,
    sample_plots sample_channels (sample_args "label_ref" None) None
                 (Some sample_reference)
    = Raise (KeyError k).
Proof.
  destruct (label_reference_sorts sample_file sample_read sample_pulls
              sample_match sample_search ∅ sample_channels sample_mev
              sample_read_lengths sample_pulls_lengths sample_fit
              (sample_args "label_ref" None) None false false
              (Some sample_reference) None F64.one) as [H _].
  - simpl. tauto.
  - reflexivity.
  - apply H. reflexivity.
Defined.

Lemma grouped_pull_sorts_witness :
  exists k,
    producePlots sample_file sample_read sample_pulls sample_match
      sample_search ∅ sample_channels sample_mev sample_fit
      (sample_args "pull" None) None true false None None
    = Raise (KeyError k).
Proof.
  apply (grouped_pull_sorts sample_file sample_read sample_pulls
           sample_match sample_search ∅ sample_channels sample_mev
           sample_read_lengths sample_pulls_lengths sample_fit
           (sample_args "pull" None) None false None None F64.one).
  - reflexivity.
  - simpl. tauto.
  - reflexivity.
  - reflexivity.
Defined.


Lemma reference_sort_total_witness :
  exists df,
    build_table sample_file sample_read sample_pulls sample_match
      sample_search ∅ sample_fit (sample_args "abspull_both" None) None
      false false (Some sample_reference) None F64.one = Ok df /\
    In "abspull_both" (columns df).
Proof.
  apply (reference_sort_total sample_file sample_read sample_pulls
           sample_match sample_search ∅ sample_read_lengths
           sample_pulls_lengths sample_fit sample_reference
           (sample_args "abspull_both" None) None false false None F64.one
           "abspull" "_both").
  - simpl. tauto.
  - right. split; [reflexivity|]. simpl. tauto.
  - reflexivity.
  - reflexivity.
Defined.

Lemma default_sort_order_witness :
  exists df,
    sample_plots sample_channels (sample_args "absimpact" (Some 2%Z)) None
                 None = Ok (Some df) /\
    Sorted (fun r1 r2 : gmap string cell =>
              exists x y,
                r1 !! "absimpact" = Some (Num x) /\
                r2 !! "absimpact" = Some (Num y) /\
                F64.leb x y = true)
           (rows df).
Proof.
  destruct (default_sort_order sample_file sample_read sample_pulls
              sample_match sample_search ∅ sample_channels sample_mev
              sample_read_lengths sample_pulls_lengths sample_fit
              (sample_args "absimpact" (Some 2%Z)) None false false None
              None F64.one) as (df & E & HS).
  - reflexivity.
  - reflexivity.
  - reflexivity.
  - reflexivity.
  - intros _ x Hx. simpl in Hx.
    destruct Hx as [<-|[<-|[<-|[]]]]; reflexivity.
  - exists df. split; [exact E|].
    eapply Sorted_ind with (P := fun l => Sorted _ l); [| |exact HS].
    + constructor.
    + intros a l _ IH Hhd. constructor; [exact IH|].
      destruct Hhd as [|b l (x & y & Hx & Hy & _ & _ & Hle)]; constructor.
      exists x, y. repeat split; assumption.
Defined.


(** * The number in a name, the output files and the script *)

(** ** The number in the name of a parameter of interest (line 352) *)

(** [s.split(sep)[0]]: what comes before the first [sep], all of [s]
    where there is none. *)
Fixpoint before (sep s : string) : string :=
  match s with
  | EmptyString => EmptyString
  | String c s' =>
      if String.prefix sep s then EmptyString else String c (before sep s')
  end.

(** A digit from [0] to [9]; [\d] also matches the decimal digits of
    other scripts, which a name of ASCII characters does not have. *)
Definition is_digit (c : ascii) : bool :=
  (48 <=? nat_of_ascii c)%nat && (nat_of_ascii c <=? 57)%nat.

(** [re.findall(r'\d+', s)]: the maximal runs of digits, from left to
    right; [run] is the run that is being read. *)
Fixpoint digit_runs (run s : string) : list string :=
  match s with
  | EmptyString =>
      match run with
      | EmptyString => []
      | _ => [run]
      end
  | String c s' =>
      if is_digit c then digit_runs (run ++ String c EmptyString) s'
      else match run with
           | EmptyString => digit_runs EmptyString s'
           | _ => run :: digit_runs EmptyString s'
           end
  end.

(** The integer that a string of digits denotes. *)
Fixpoint digits_value (acc : Z) (s : string) : Z :=
  match s with
  | EmptyString => acc
  | String c s' => digits_value (10 * acc + (Z.of_nat (nat_of_ascii c) - 48)) s'
  end.

(** [float(re.findall(r'\d+', poi.split("MeV")[0].replace("p","."))[-1])]
    for a name of ASCII characters; [None] is the [IndexError] of [[-1]]
    on an empty list. *)
Definition mev_number (poi : string) : option F64.t :=
  match List.last (map Some (digit_runs "" (str_replace (before "MeV" poi) "p" ".")))
                  None with
  | Some d => Some (F64.of_Z (digits_value 0 d))
  | None => None
  end.

Definition all_digits (s : string) : bool :=
  forallb is_digit (list_ascii_of_string s).

(** A name of ASCII characters: for such a name the digits of [\d] and
    of [float] are the ten of [is_digit]. *)
Definition is_ascii (s : string) : bool :=
  forallb (fun c => (nat_of_ascii c <? 128)%nat) (list_ascii_of_string s).

Definition no_digit (s : string) : bool :=
  forallb (fun c => negb (is_digit c)) (list_ascii_of_string s).

(** *** Facts *)

Lemma append_cons (x : ascii) (a b : string) :
  String x a ++ b = String x (a ++ b).
Proof. reflexivity. Qed.

Lemma append_assoc (a b c : string) : (a ++ b) ++ c = a ++ (b ++ c).
Proof.
  induction a as [|x a IH]; [reflexivity|].
  rewrite !append_cons, IH. reflexivity.
Qed.

Lemma append_nil_r (a : string) : a ++ "" = a.
Proof.
  induction a as [|x a IH]; [reflexivity|].
  rewrite append_cons, IH. reflexivity.
Qed.

(** A replacement of one character by one character goes character by
    character. *)
Definition swap_char (a b c : ascii) : ascii := if Ascii.eqb c a then b else c.

Fixpoint map_string (f : ascii -> ascii) (s : string) : string :=
  match s with
  | EmptyString => EmptyString
  | String c s' => String (f c) (map_string f s')
  end.

Lemma replace_char (a b : ascii) (s : string) :
  str_replace s (String a "") (String b "") = map_string (swap_char a b) s.
Proof.
  unfold str_replace. induction s as [|c s IH]; [reflexivity|].
  simpl. unfold swap_char. destruct (ascii_dec a c) as [->|Hne].
  - rewrite Ascii.eqb_refl.
    assert (E : String.prefix "" s = true) by (destruct s; reflexivity).
    rewrite E, IH. reflexivity.
  - assert (E : Ascii.eqb c a = false) by (apply Ascii.eqb_neq; congruence).
    rewrite E, IH. reflexivity.
Qed.

Lemma map_string_app f (a b : string) :
  map_string f (a ++ b) = map_string f a ++ map_string f b.
Proof.
  induction a as [|c a IH]; [reflexivity|].
  rewrite append_cons. simpl. rewrite IH. reflexivity.
Qed.

Lemma map_string_digits f (s : string) :
  (forall c, is_digit c = true -> f c = c) ->
  all_digits s = true -> map_string f s = s.
Proof.
  intros Hf. unfold all_digits. induction s as [|c s IH]; simpl; [reflexivity|].
  intros H. apply andb_prop in H. destruct H as [Hc Hs].
  rewrite (Hf c Hc), (IH Hs). reflexivity.
Qed.

Lemma digit_runs_digits (run ds : string) :
  all_digits ds = true -> run ++ ds <> "" ->
  digit_runs run ds = [run ++ ds].
Proof.
  unfold all_digits. revert run. induction ds as [|c ds IH]; simpl; intros run H Hne.
  - rewrite append_nil_r in *. destruct run; [congruence|reflexivity].
  - apply andb_prop in H. destruct H as [Hc Hs]. rewrite Hc.
    rewrite IH; [|exact Hs|].
    + rewrite append_assoc. reflexivity.
    + rewrite append_assoc. simpl. destruct run; discriminate.
Qed.

(** After a text that does not end in a digit the last run is the run of
    digits that follows. *)
Lemma digit_runs_last (run pre ds : string) (c : ascii) :
  is_digit c = false -> all_digits ds = true -> ds <> "" ->
  List.last (map Some (digit_runs run (pre ++ String c ds))) None = Some ds.
Proof.
  intros Hc Hds Hne. revert run.
  induction pre as [|a pre IH]; intros run; simpl.
  - rewrite Hc.
    assert (E : digit_runs "" ds = [ds]) by (apply digit_runs_digits; assumption).
    destruct run; rewrite E; reflexivity.
  - destruct (is_digit a); [apply IH|].
    destruct run; [apply IH|].
    change (map Some ?x) with (map Some x).
    simpl map. specialize (IH "").
    destruct (map Some (digit_runs "" (pre ++ String c ds))) eqn:E;
      [discriminate IH|exact IH].
Qed.

Lemma digit_runs_only (ds : string) :
  all_digits ds = true -> ds <> "" ->
  List.last (map Some (digit_runs "" ds)) None = Some ds.
Proof.
  intros H Hne. rewrite digit_runs_digits by assumption. reflexivity.
Qed.

Lemma digit_runs_none (run s : string) :
  no_digit s = true -> run = "" -> digit_runs run s = [].
Proof.
  unfold no_digit. intros H ->. induction s as [|c s IH]; simpl in *; [reflexivity|].
  apply andb_prop in H. destruct H as [Hc Hs].
  apply negb_true_iff in Hc. rewrite Hc. apply IH, Hs.
Qed.

Definition ends_in_digit (s : string) : bool :=
  match last_char s with
  | Some c => is_digit c
  | None => false
  end.

Lemma prefix_cons (a b : ascii) (p s : string) :
  String.prefix (String a p) (String b s)
  = if ascii_dec a b then String.prefix p s else false.
Proof. reflexivity. Qed.

Lemma prefix_nil (s : string) : String.prefix "" s = true.
Proof. destruct s; reflexivity. Qed.

Lemma prefix_MeV_digit (a x : string) (d : ascii) :
  is_digit d = true ->
  String.prefix "MeV" (a ++ String d x) = String.prefix "MeV" a.
Proof.
  intros Hd.
  assert (HM : "M"%char <> d) by (intros <-; discriminate).
  assert (He : "e"%char <> d) by (intros <-; discriminate).
  assert (HV : "V"%char <> d) by (intros <-; discriminate).
  destruct a as [|c1 [|c2 [|c3 a]]]; rewrite ?append_cons;
    change ("" ++ String d x) with (String d x);
    rewrite ?prefix_cons;
    repeat match goal with
           | |- context [ascii_dec ?u ?v] =>
               destruct (ascii_dec u v); try congruence
           end;
    rewrite ?prefix_nil; reflexivity.
Qed.

Lemma before_cons (sep : string) (c : ascii) (s : string) :
  before sep (String c s)
  = if String.prefix sep (String c s) then "" else String c (before sep s).
Proof. reflexivity. Qed.

Lemma before_digits (ds rest : string) :
  all_digits ds = true -> before "MeV" (ds ++ "MeV" ++ rest) = ds.
Proof.
  unfold all_digits. induction ds as [|d ds IH]; intros H.
  - change ("" ++ "MeV" ++ rest)
      with (String "M" (String "e" (String "V" rest))).
    rewrite before_cons, !prefix_cons, prefix_nil. reflexivity.
  - simpl in H. apply andb_prop in H. destruct H as [Hd Hs].
    rewrite append_cons.
    change (before "MeV" (String d (ds ++ "MeV" ++ rest)))
      with (if String.prefix "MeV" (String d (ds ++ "MeV" ++ rest))
            then "" else String d (before "MeV" (ds ++ "MeV" ++ rest))).
    rewrite (prefix_MeV_digit "" (ds ++ "MeV" ++ rest) d Hd
             : String.prefix "MeV" (String d (ds ++ "MeV" ++ rest)) = _).
    rewrite (IH Hs). reflexivity.
Qed.

Lemma before_first (pre ds rest : string) :
  str_in "MeV" pre = false -> all_digits ds = true -> ds <> "" ->
  before "MeV" (pre ++ ds ++ "MeV" ++ rest) = pre ++ ds.
Proof.
  intros Hpre Hds Hne. destruct ds as [|d ds]; [congruence|].
  assert (Hd : is_digit d = true).
  { unfold all_digits in Hds. simpl in Hds. apply andb_prop in Hds. tauto. }
  induction pre as [|a pre IH].
  - apply before_digits. exact Hds.
  - change (str_in "MeV" (String a pre))
      with (String.prefix "MeV" (String a pre) || str_in "MeV" pre) in Hpre.
    apply orb_false_elim in Hpre. destruct Hpre as [Hp Hin].
    rewrite !(append_cons a pre), before_cons.
    rewrite (prefix_MeV_digit (String a pre) (ds ++ "MeV" ++ rest) d Hd
             : String.prefix "MeV"
                 (String a (pre ++ String d ds ++ "MeV" ++ rest)) = _).
    rewrite Hp, (IH Hin). reflexivity.
Qed.

Lemma last_char_split (s : string) :
  s <> "" -> exists q c, s = q ++ String c "" /\ last_char s = Some c.
Proof.
  induction s as [|a s IH]; [congruence|]. intros _.
  destruct s as [|b s].
  - exists "", a. split; reflexivity.
  - destruct IH as (q & c & E & L); [discriminate|].
    exists (String a q), c. rewrite append_cons, <- E.
    split; [reflexivity|exact L].
Qed.

Lemma last_char_map f (s : string) :
  last_char (map_string f s) = f <$> last_char s.
Proof.
  induction s as [|a s IH]; [reflexivity|].
  destruct s as [|b s]; [reflexivity|]. exact IH.
Qed.

Lemma swap_p_digit (c : ascii) :
  is_digit (swap_char "p" "." c) = is_digit c.
Proof.
  unfold swap_char. destruct (Ascii.eqb_spec c "p") as [->|_]; reflexivity.
Qed.

(** X11.  The number read from a name of ASCII characters: the last
    run of digits before the first ["MeV"], as an integer.  What a ["p"]
    there separates is not joined to a decimal number, since the pattern
    finds digits only: of [100p5MeV] the number is 5. *)
Theorem mev_number_last_run (pre ds rest : string) :
  is_ascii (pre ++ ds ++ "MeV" ++ rest) = true ->
  str_in "MeV" pre = false ->
  ends_in_digit pre = false ->
  all_digits ds = true -> ds <> "" ->
  mev_number (pre ++ ds ++ "MeV" ++ rest)
  = Some (F64.of_Z (digits_value 0 ds)).
Proof.
  intros _ Hpre Hend Hds Hne. unfold mev_number.
  rewrite before_first by assumption.
  rewrite (replace_char "p" "."), map_string_app.
  rewrite (map_string_digits _ ds); [|intros c Hc|exact Hds].
  2:{ unfold swap_char. destruct (Ascii.eqb_spec c "p") as [->|_];
        [discriminate Hc|reflexivity]. }
  destruct (string_dec (map_string (swap_char "p" ".") pre) "") as [E|E].
  - rewrite E. simpl String.append. rewrite digit_runs_only by assumption.
    reflexivity.
  - destruct (last_char_split _ E) as (q & c & Eq & L).
    rewrite Eq, append_assoc, append_cons. simpl String.append.
    rewrite digit_runs_last; [reflexivity| |exact Hds|exact Hne].
    rewrite last_char_map in L. unfold ends_in_digit in Hend.
    destruct (last_char pre) as [c0|]; [|discriminate L].
    simpl in L. injection L as <-. rewrite swap_p_digit. exact Hend.
Qed.

Lemma no_digit_map (s : string) :
  no_digit (map_string (swap_char "p" ".") s) = no_digit s.
Proof.
  unfold no_digit. induction s as [|c s IH]; [reflexivity|].
  simpl. rewrite swap_p_digit. simpl in IH. rewrite IH. reflexivity.
Qed.

(** X12.  Where no digit comes before the first ["MeV"] of a name of
    ASCII characters there is no number to take: [[-1]] fails on the
    empty list. *)
Theorem mev_number_none (poi : string) :
  is_ascii poi = true ->
  no_digit (before "MeV" poi) = true -> mev_number poi = None.
Proof.
  intros _ H. unfold mev_number.
  rewrite (replace_char "p" "."), digit_runs_none; [reflexivity| |reflexivity].
  rewrite no_digit_map. exact H.
Qed.

Lemma mev_number_last_run_witness :
  mev_number "massShiftW100p5MeV" = Some (F64.of_Z 5).
Proof.
  apply (mev_number_last_run "massShiftW100p" "5" ""); try reflexivity.
  discriminate.
Defined.

Lemma mev_number_none_witness : mev_number "widthMeV" = None.
Proof. apply mev_number_none; reflexivity. Defined.

(** ** Writing the plots ([writeOutput], lines 25-52) *)

(** [s.rfind(c)]: the index of the last [c] in [s], [-1] where there is
    none. *)
Fixpoint rfind (c : ascii) (s : string) : Z :=
  match s with
  | EmptyString => -1
  | String a s' =>
      let i := rfind c s' in
      if (0 <=? i)%Z then i + 1 else if Ascii.eqb a c then 0 else -1
  end.

(** [s[:i]] and [s[i:]] for an index [i] within [s]. *)
Definition slice_to (i : Z) (s : string) : string :=
  String.substring 0 (Z.to_nat i) s.

Definition slice_from (i : Z) (s : string) : string :=
  String.substring (Z.to_nat i) (String.length s - Z.to_nat i) s.

(** [os.path.splitext(p)] of [posixpath]: the extension starts at the
    last dot of the last component, unless only dots come before it
    there. *)
Definition splitext (p : string) : string * string :=
  let sepIndex := rfind "/" p in
  let dotIndex := rfind "." p in
  if (sepIndex <? dotIndex)%Z
     && existsb (fun k => match String.get k p with
                          | Some c => negb (Ascii.eqb c ".")
                          | None => false
                          end)
                (seq (Z.to_nat (sepIndex + 1))
                     (Z.to_nat (dotIndex - (sepIndex + 1))))
  then (slice_to dotIndex p, slice_from dotIndex p)
  else (p, EmptyString).

(** [s.rsplit("/", 1)] *)
Definition rsplit_slash (s : string) : list string :=
  let i := rfind "/" s in
  if (i <? 0)%Z then [s] else [slice_to i s; slice_from (i + 1) s].

(** [ext] with its leading dot (lines 34-35); [None] is the
    [IndexError] of [ext[0]] on the empty string. *)
Definition dotted (ext : string) : option string :=
  match ext with
  | EmptyString => None
  | String c _ => Some (if Ascii.eqb c "." then ext else "." ++ ext)
  end.

Inductive io_error :=
  | IndexError
  | UnboundLocalError.

Inductive ending :=
  | Returns
  | Raises (e : io_error).

Section Output.
(** A figure of plotly and the meta data of the input file. *)
Variable figure : Type.
Variable meta_info : Type.

(** What [writeOutput] does to the world: the files that the figure is
    written to, and the call of [plot_tools.write_index_and_log]; the
    writers of plotly are taken to return. *)
Inductive event :=
  | write_html (fig : figure) (path : string)
  | write_image (fig : figure) (path : string)
  | write_index_and_log (outdir name : string) (args : option Args)
                        (meta : option meta_info).

Definition write_file (fig : figure) (name ext : string) : event :=
  if String.eqb ext ".html" then write_html fig (name ++ ext)
  else write_image fig (name ++ ext).

(** The loop of lines 33-46, [output] being the variable of that name;
    the test of line 45 comes after an assignment to [output[1]], so
    that its branch is never taken. *)
Fixpoint write_all (fig : figure) (name : string) (extensions : list string)
    (output : option (string * string))
  : list event * (io_error + option (string * string)) :=
  match extensions with
  | [] => ([], inr output)
  | ext :: rest =>
      match dotted ext with
      | None => ([], inl IndexError)
      | Some ext =>
          match rsplit_slash name with
          | [outdir; base] =>
              let '(events, r) :=
                write_all fig name rest (Some (outdir, fst (splitext base))) in
              (write_file fig name ext :: events, r)
          | _ => ([write_file fig name ext], inl IndexError)
          end
      end
  end.

(** [writeOutput]: the list [extensions] after the call (the call
    appends to the list it is given), the events and the ending. *)
Definition writeOutput (fig : figure) (outfile : string)
    (extensions : list string) (postfix : option string)
    (args : option Args) (meta : option meta_info)
  : list string * list event * ending :=
  let '(name, ext) := splitext outfile in
  let extensions :=
    if inb ext extensions then extensions
    else (extensions ++ [ext])%list in
  let name :=
    if truthy postfix then name ++ "_" ++ default "" postfix else name in
  let '(events, r) := write_all fig name extensions None in
  match r with
  | inl e => (extensions, events, Raises e)
  | inr output =>
      match args, meta with
      | None, None => (extensions, events, Returns)
      | _, _ =>
          match output with
          | Some (outdir, base) =>
              (extensions,
               (events ++ [write_index_and_log outdir base args meta])%list,
               Returns)
          | None => (extensions, events, Raises UnboundLocalError)
          end
      end
  end.

(** The name that the files take and the list that the loop goes
    through. *)
Definition output_name (outfile : string) (postfix : option string) : string :=
  if truthy postfix
  then fst (splitext outfile) ++ "_" ++ default "" postfix
  else fst (splitext outfile).

Definition output_extensions (outfile : string) (extensions : list string)
  : list string :=
  if inb (snd (splitext outfile)) extensions then extensions
  else (extensions ++ [snd (splitext outfile)])%list.

Definition with_dot (ext : string) : string := default "" (dotted ext).

Lemma writeOutput_unfold fig outfile extensions postfix args meta :
  writeOutput fig outfile extensions postfix args meta
  = let exts := output_extensions outfile extensions in
    let '(events, r) :=
      write_all fig (output_name outfile postfix) exts None in
    match r with
    | inl e => (exts, events, Raises e)
    | inr output =>
        match args, meta with
        | None, None => (exts, events, Returns)
        | _, _ =>
            match output with
            | Some (outdir, base) =>
                (exts,
                 (events ++ [write_index_and_log outdir base args meta])%list,
                 Returns)
            | None => (exts, events, Raises UnboundLocalError)
            end
        end
    end.
Proof.
  unfold writeOutput, output_name, output_extensions.
  destruct (splitext outfile) as [name ext]. reflexivity.
Qed.

Lemma rsplit_slash_cases (s : string) :
  ((0 <= rfind "/" s)%Z /\
   rsplit_slash s = [slice_to (rfind "/" s) s;
                     slice_from (rfind "/" s + 1) s]) \/
  ((rfind "/" s < 0)%Z /\ rsplit_slash s = [s]).
Proof.
  unfold rsplit_slash. destruct (rfind "/" s <? 0)%Z eqn:E.
  - right. apply Z.ltb_lt in E. split; [exact E|reflexivity].
  - left. apply Z.ltb_ge in E. split; [exact E|reflexivity].
Qed.

Lemma dotted_nonempty (ext : string) :
  ext <> "" -> dotted ext = Some (with_dot ext).
Proof. destruct ext; [congruence|reflexivity]. Qed.

(** The loop where nothing fails: one file for each extension. *)
Lemma write_all_files fig name exts output outdir base :
  rsplit_slash name = [outdir; base] ->
  Forall (fun e => e <> "") exts ->
  write_all fig name exts output
  = (map (fun e => write_file fig name (with_dot e)) exts,
     inr (match exts with
          | [] => output
          | _ => Some (outdir, fst (splitext base))
          end)).
Proof.
  intros Hs Hall. revert output.
  induction Hall as [|e exts He Hall IH]; intros output; [reflexivity|].
  simpl. rewrite (dotted_nonempty e He), Hs, IH.
  destruct exts; reflexivity.
Qed.

(** The loop fails where the name has no ["/"]. *)
Lemma write_all_no_directory fig name exts output :
  (rfind "/" name < 0)%Z -> exts <> [] ->
  exists events,
    write_all fig name exts output = (events, inl IndexError) /\
    (length events <= 1)%nat.
Proof.
  intros Hs Hne. destruct exts as [|e exts]; [congruence|]. simpl.
  destruct (dotted e) as [d|].
  - destruct (rsplit_slash_cases name) as [[H _]|[_ ->]]; [lia|].
    eexists. split; [reflexivity|]. simpl. lia.
  - eexists. split; [reflexivity|]. simpl. lia.
Qed.

Lemma output_extensions_own (outfile : string) (extensions : list string) :
  In (snd (splitext outfile)) (output_extensions outfile extensions).
Proof.
  unfold output_extensions.
  destruct (inb _ extensions) eqn:E.
  - apply inb_In. exact E.
  - apply in_or_app. right. left. reflexivity.
Qed.

Lemma output_extensions_nonempty (outfile : string) (extensions : list string) :
  output_extensions outfile extensions <> [].
Proof.
  intros E. pose proof (output_extensions_own outfile extensions) as H.
  rewrite E in H. destruct H.
Qed.

(** What the loop gives: files of the figure only; a value of [output]
    where the name has a ["/"] and no extension is empty, [IndexError]
    otherwise. *)
Lemma write_all_result fig name exts output :
  (forall ev, In ev (fst (write_all fig name exts output)) ->
              exists p, ev = write_file fig name p) /\
  match snd (write_all fig name exts output) with
  | inr o =>
      Forall (fun e => e <> "") exts /\
      ((exts = [] /\ o = output) \/
       ((0 <= rfind "/" name)%Z /\ exists d b, o = Some (d, b)))
  | inl e => e = IndexError /\ ((rfind "/" name < 0)%Z \/ In "" exts)
  end.
Proof.
  revert output. induction exts as [|e exts IH]; intros output; simpl.
  - split; [tauto|]. split; [constructor|]. left. tauto.
  - destruct (dotted e) as [d|] eqn:Ed.
    + assert (He : e <> "") by (intros ->; discriminate Ed).
      destruct (rsplit_slash_cases name) as [[Hpos ->]|[Hneg ->]].
      * specialize (IH (Some (slice_to (rfind "/" name) name,
                              fst (splitext
                                     (slice_from (rfind "/" name + 1) name))))).
        destruct (write_all fig name exts _) as [evs r]. simpl in *.
        destruct IH as [IH1 IH2]. split.
        -- intros ev [<-|H]; [eexists; reflexivity|apply IH1, H].
        -- destruct r as [err|o].
           ++ destruct IH2 as [-> [H|H]]; split; try reflexivity; tauto.
           ++ destruct IH2 as [Hall H]. split; [constructor; assumption|].
              right. split; [exact Hpos|].
              destruct H as [[_ ->]|[_ H]]; [eexists; eexists; reflexivity|].
              exact H.
      * simpl. split.
        -- intros ev [<-|[]]. eexists. reflexivity.
        -- split; [reflexivity|]. left. exact Hneg.
    + simpl. split; [tauto|]. split; [reflexivity|]. right. left.
      destruct e; [reflexivity|discriminate Ed].
Qed.

(** *** The extension and the text after the last dot *)

Lemma rfind_lower (c : ascii) (s : string) : (-1 <= rfind c s)%Z.
Proof.
  induction s as [|a s IH]; simpl; [lia|].
  destruct (0 <=? rfind c s)%Z eqn:E; [apply Z.leb_le in E; lia|].
  destruct (Ascii.eqb a c); lia.
Qed.

Lemma str_split_cons (c a : ascii) (s : string) :
  str_split c (String a s)
  = if Ascii.eqb a c then "" :: str_split c s
    else match str_split c s with
         | h :: tl => String a h :: tl
         | [] => [String a ""]
         end.
Proof. reflexivity. Qed.

Lemma str_split_absent (c : ascii) (s : string) :
  (rfind c s < 0)%Z -> str_split c s = [s].
Proof.
  induction s as [|a s IH]; [reflexivity|]. simpl rfind.
  destruct (0 <=? rfind c s)%Z eqn:E;
    [apply Z.leb_le in E; pose proof (rfind_lower c s); lia|].
  apply Z.leb_gt in E. destruct (Ascii.eqb a c) eqn:Ea; [lia|].
  intros _. rewrite str_split_cons, Ea, (IH E). reflexivity.
Qed.

Lemma str_split_present (c : ascii) (s : string) :
  (0 <= rfind c s)%Z -> exists h x tl, str_split c s = h :: x :: tl.
Proof.
  induction s as [|a s IH]; [simpl; lia|]. simpl rfind.
  rewrite str_split_cons.
  destruct (0 <=? rfind c s)%Z eqn:E.
  - apply Z.leb_le in E. destruct (IH E) as (h & x & tl & ->). intros _.
    destruct (Ascii.eqb a c); eexists; eexists; eexists; reflexivity.
  - apply Z.leb_gt in E. destruct (Ascii.eqb a c) eqn:Ea; [|lia].
    intros _. rewrite (str_split_absent c s E).
    eexists; eexists; eexists; reflexivity.
Qed.

Lemma substring_all (s : string) : String.substring 0 (String.length s) s = s.
Proof. induction s as [|a s IH]; simpl; [reflexivity|]. rewrite IH. reflexivity. Qed.

Lemma slice_from_rfind (c : ascii) (s : string) :
  (0 <= rfind c s)%Z ->
  slice_from (rfind c s) s = String c (List.last (str_split c s) "").
Proof.
  unfold slice_from. induction s as [|a s IH]; [simpl; lia|].
  simpl rfind. rewrite str_split_cons.
  destruct (0 <=? rfind c s)%Z eqn:E.
  - apply Z.leb_le in E. intros _.
    replace (Z.to_nat (rfind c s + 1)) with (S (Z.to_nat (rfind c s)))
      by lia.
    change (String.length (String a s)) with (S (String.length s)).
    simpl. rewrite (IH E).
    destruct (str_split_present c s E) as (h & x & tl & ->).
    destruct (Ascii.eqb a c); reflexivity.
  - apply Z.leb_gt in E. destruct (Ascii.eqb_spec a c) as [->|N]; [|lia].
    intros _. change (Z.to_nat 0) with 0%nat. rewrite Nat.sub_0_r.
    rewrite substring_all, (str_split_absent c s E). reflexivity.
Qed.

Lemma splitext_cases (p : string) :
  splitext p = (p, "") \/
  ((rfind "/" p < rfind "." p)%Z /\
   splitext p = (slice_to (rfind "." p) p, slice_from (rfind "." p) p)).
Proof.
  unfold splitext. destruct (rfind "/" p <? rfind "." p)%Z eqn:E;
    [|left; reflexivity].
  apply Z.ltb_lt in E. destruct (existsb _ _); [|left; reflexivity].
  right. split; [exact E|reflexivity].
Qed.

(** An extension is the dot and the text after the last dot. *)
Lemma splitext_extension (p : string) :
  snd (splitext p) <> "" ->
  snd (splitext p) = "." ++ List.last (str_split "." p) "".
Proof.
  destruct (splitext_cases p) as [->|[Hlt ->]]; [simpl; congruence|].
  intros _. simpl. apply slice_from_rfind.
  pose proof (rfind_lower "/" p). lia.
Qed.

Lemma splitext_startswith (p : string) :
  snd (splitext p) <> "" -> startswith (snd (splitext p)) "." = true.
Proof.
  intros H. rewrite (splitext_extension p H). unfold startswith.
  change ("." ++ ?x) with (String "." x).
  rewrite prefix_cons, prefix_nil. reflexivity.
Qed.

Lemma in_str_split_no_sep (c : ascii) (s x : string) :
  In x (str_split c s) -> (rfind c x < 0)%Z.
Proof.
  revert x. induction s as [|a s IH]; intros x.
  - simpl. intros [<-|[]]. simpl. lia.
  - rewrite str_split_cons. destruct (Ascii.eqb a c) eqn:Ea.
    + intros [<-|H]; [simpl; lia|apply IH, H].
    + destruct (str_split c s) as [|h tl] eqn:E.
      * intros [<-|[]]. simpl. rewrite Ea. lia.
      * intros [<-|H].
        -- simpl. assert (Hh : (rfind c h < 0)%Z) by (apply IH; left; reflexivity).
           destruct (0 <=? rfind c h)%Z eqn:E0;
             [apply Z.leb_le in E0; lia|]. rewrite Ea. lia.
        -- apply IH. right. exact H.
Qed.

Lemma str_split_nonempty (c : ascii) (s : string) : str_split c s <> [].
Proof.
  induction s as [|a s IH]; [discriminate|]. rewrite str_split_cons.
  destruct (Ascii.eqb a c); [discriminate|].
  destruct (str_split c s); discriminate.
Qed.

Lemma last_In {A} (l : list A) (d : A) : l <> [] -> In (List.last l d) l.
Proof.
  induction l as [|x l IH]; [congruence|]. intros _.
  destruct l as [|y l]; [left; reflexivity|].
  right. apply IH. discriminate.
Qed.

Lemma last_field_no_dot (s : string) :
  startswith (List.last (str_split "." s) "") "." = false.
Proof.
  pose proof (in_str_split_no_sep "." s _
                (last_In _ "" (str_split_nonempty "." s))) as H.
  destruct (List.last (str_split "." s) "") as [|a x]; [reflexivity|].
  unfold startswith. rewrite prefix_cons, prefix_nil.
  destruct (ascii_dec "." a) as [<-|N]; [|reflexivity].
  simpl in H. destruct (0 <=? rfind "." x)%Z eqn:E;
    [apply Z.leb_le in E|]; lia.
Qed.

Lemma write_file_not_index fig name p d n a m :
  write_file fig name p <> write_index_and_log d n a m.
Proof. unfold write_file. destruct (String.eqb p ".html"); discriminate. Qed.

Lemma output_extensions_Forall (outfile : string) (extensions : list string) :
  Forall (fun ext => ext <> "") (output_extensions outfile extensions) <->
  snd (splitext outfile) <> "" /\ Forall (fun ext => ext <> "") extensions.
Proof.
  unfold output_extensions. destruct (inb _ extensions) eqn:E.
  - apply inb_In in E. split; [|tauto]. intros H. split; [|exact H].
    rewrite List.Forall_forall in H. apply H. exact E.
  - rewrite Forall_app. split.
    + intros [H1 H2]. split; [|exact H1]. inversion H2. assumption.
    + intros [H1 H2]. split; [exact H2|].
      constructor; [exact H1|constructor].
Qed.

(** X13.  When [writeOutput] returns: exactly when the name of the
    files, with the postfix, has a directory part (a ["/"]), the outfile
    has an extension and no extension of the list is the empty string.
    In every other case it ends in [IndexError], without a call of
    [write_index_and_log]; without a ["/"] in the name, after at most
    one file. *)
Theorem writeOutput_returns fig outfile extensions postfix args meta :
  let '(_, events, e) :=
    writeOutput fig outfile extensions postfix args meta in
  (e = Returns <->
   (0 <= rfind "/" (output_name outfile postfix))%Z /\
   snd (splitext outfile) <> "" /\
   Forall (fun ext => ext <> "") extensions) /\
  (e <> Returns ->
   e = Raises IndexError /\
   forall d n a m, ~ In (write_index_and_log d n a m) events) /\
  ((rfind "/" (output_name outfile postfix) < 0)%Z ->
   (length events <= 1)%nat).
Proof.
  rewrite writeOutput_unfold. cbv zeta.
  set (name := output_name outfile postfix).
  set (exts := output_extensions outfile extensions).
  pose proof (output_extensions_nonempty outfile extensions) as Hne.
  pose proof (output_extensions_Forall outfile extensions) as Hexts.
  fold exts in Hne, Hexts.
  pose proof (write_all_result fig name exts None) as [Hev Hres].
  assert (Hlen : (rfind "/" name < 0)%Z ->
                 (length (fst (write_all fig name exts None)) <= 1)%nat).
  { intros Hneg.
    destruct (write_all_no_directory fig name exts None Hneg Hne)
      as (events & -> & H). exact H. }
  destruct (write_all fig name exts None) as [events r]. simpl in *.
  destruct r as [err|o].
  - destruct Hres as [-> Hwhy]. split; [|split].
    + split; [discriminate|]. intros (Hpos & Hall).
      destruct Hwhy as [Hneg|Hin]; [lia|].
      apply Hexts in Hall. rewrite List.Forall_forall in Hall.
      exfalso. apply (Hall "" Hin). reflexivity.
    + intros _. split; [reflexivity|]. intros d n a m Hin.
      destruct (Hev _ Hin) as [p E]. symmetry in E.
      exact (write_file_not_index _ _ _ _ _ _ _ E).
    + exact Hlen.
  - destruct Hres as [Hall [[E _]|[Hpos (d & b & ->)]]]; [congruence|].
    assert (R : forall evs (x : ending),
               x = Returns ->
               (x = Returns <->
                (0 <= rfind "/" name)%Z /\
                snd (splitext outfile) <> "" /\
                Forall (fun ext => ext <> "") extensions) /\
               (x <> Returns ->
                x = Raises IndexError /\
                forall d n a m, ~ In (write_index_and_log d n a m) evs) /\
               ((rfind "/" name < 0)%Z -> (length evs <= 1)%nat)).
    { intros evs x ->. split; [|split]; [|congruence|lia].
      split; [|reflexivity]. intros _. split; [exact Hpos|].
      apply Hexts. exact Hall. }
    destruct args, meta; apply R; reflexivity.
Qed.

(** X14.  Where it returns, [writeOutput] has written one file for each
    extension of the list, in the order of the list and under the name
    of the outfile with the postfix, and after them one more for the
    extension of the outfile itself unless the list has it, dot
    included; a file whose extension is [.html] with [write_html], any
    other with [write_image].  Then, unless neither the arguments nor
    the meta data are given, it calls [write_index_and_log] once, with
    the directory of the name and with its last component without
    extension. *)
Theorem writeOutput_files fig outfile extensions postfix args meta :
  (0 <= rfind "/" (output_name outfile postfix))%Z ->
  snd (splitext outfile) <> "" ->
  Forall (fun ext => ext <> "") extensions ->
  let name := output_name outfile postfix in
  let exts :=
    if inb (snd (splitext outfile)) extensions then extensions
    else (extensions ++ [snd (splitext outfile)])%list in
  let files :=
    map (fun e =>
           let ext := if startswith e "." then e else "." ++ e in
           if String.eqb ext ".html" then write_html fig (name ++ ext)
           else write_image fig (name ++ ext)) exts in
  writeOutput fig outfile extensions postfix args meta
  = (exts,
     match args, meta with
     | None, None => files
     | _, _ =>
         (files ++
          [write_index_and_log
             (slice_to (rfind "/" name) name)
             (fst (splitext (slice_from (rfind "/" name + 1) name)))
             args meta])%list
     end,
     Returns).
Proof.
  intros Hpos Hext Hall. cbv zeta. rewrite writeOutput_unfold. cbv zeta.
  fold (output_extensions outfile extensions).
  set (name := output_name outfile postfix) in *.
  set (exts := output_extensions outfile extensions).
  assert (Hexts : Forall (fun ext => ext <> "") exts).
  { apply output_extensions_Forall. split; assumption. }
  destruct (rsplit_slash_cases name) as [[_ Hsplit]|[Hneg _]]; [|lia].
  rewrite (write_all_files fig name exts None _ _ Hsplit Hexts).
  assert (Hmap : map (fun e => write_file fig name (with_dot e)) exts
                 = map (fun e =>
                          let ext := if startswith e "." then e else "." ++ e in
                          if String.eqb ext ".html"
                          then write_html fig (name ++ ext)
                          else write_image fig (name ++ ext)) exts).
  { apply map_ext_in. intros e He. rewrite List.Forall_forall in Hexts.
    specialize (Hexts e He). destruct e as [|c e]; [congruence|].
    unfold with_dot, dotted, write_file, startswith. simpl default.
    cbv zeta. rewrite prefix_cons, prefix_nil.
    destruct (ascii_dec "." c) as [<-|N].
    - reflexivity.
    - assert (E : Ascii.eqb c "." = false)
        by (apply Ascii.eqb_neq; congruence).
      rewrite E. reflexivity. }
  rewrite Hmap.
  destruct exts as [|e0 exts0] eqn:Ee;
    [exfalso; apply (output_extensions_nonempty outfile extensions);
     exact Ee|].
  destruct args, meta; reflexivity.
Qed.

(** X15.  The extension of the outfile is looked up in the list with
    its dot: given the list as [producePlots] builds it, the text after
    the last dot of the outfile followed by the other extensions, the
    file of the outfile's own type is written first and, unless the
    others name it with the dot, once more at the end. *)
Theorem outfile_written_twice fig outfile others postfix args meta :
  let name := output_name outfile postfix in
  let ext := List.last (str_split "." outfile) "" in
  (0 <= rfind "/" name)%Z ->
  snd (splitext outfile) <> "" ->
  ext <> "" ->
  Forall (fun e => e <> "") others ->
  ~ In ("." ++ ext) others ->
  exists between rest,
    snd (fst (writeOutput fig outfile (ext :: others) postfix args meta))
    = (write_file fig name ("." ++ ext) :: between ++
       write_file fig name ("." ++ ext) :: rest)%list /\
    snd (writeOutput fig outfile (ext :: others) postfix args meta) = Returns.
Proof.
  intros name ext Hpos Hext Hne Hall Hnot.
  assert (Hsnd : snd (splitext outfile) = "." ++ ext)
    by (apply splitext_extension; exact Hext).
  assert (Hdot : startswith ext "." = false).
  { subst ext. apply last_field_no_dot. }
  assert (Hd2 : startswith ("." ++ ext) "." = true).
  { unfold startswith. change ("." ++ ext) with (String "." ext).
    rewrite prefix_cons, prefix_nil. reflexivity. }
  assert (Hinb : inb (snd (splitext outfile)) (ext :: others) = false).
  { destruct (inb _ _) eqn:E; [|reflexivity]. apply inb_In in E.
    rewrite Hsnd in E. destruct E as [E|E]; [|contradiction].
    exfalso. apply (f_equal String.length) in E.
    change ("." ++ ext) with (String "." ext) in E. simpl in E. lia. }
  rewrite writeOutput_files; try assumption; [|constructor; assumption].
  cbv zeta. rewrite Hinb. cbn [fst snd]. fold name.
  rewrite Hsnd, map_app.
  change (map ?f (ext :: others)) with (f ext :: map f others).
  change (map ?f ["." ++ ext]) with [f ("." ++ ext)].
  cbv beta. rewrite Hdot, Hd2. fold (write_file fig name ("." ++ ext)).
  set (W := write_file fig name ("." ++ ext)).
  set (B := map _ others).
  destruct args as [a|], meta as [m|];
    exists B; eexists; (split; [|reflexivity]);
    rewrite <- ?List.app_assoc, <- ?app_comm_cons; reflexivity.
Qed.

(** X16.  The list of the default argument is one list for all calls:
    a call that leaves [extensions] out appends the extension of its
    outfile to it, and the next such call writes a file of that type as
    well, before the file of its own type. *)
Theorem default_extensions_shared fig1 fig2 out1 out2 postfix1 postfix2 :
  (0 <= rfind "/" (output_name out1 postfix1))%Z ->
  (0 <= rfind "/" (output_name out2 postfix2))%Z ->
  snd (splitext out1) <> "" -> snd (splitext out2) <> "" ->
  snd (splitext out1) <> snd (splitext out2) ->
  let '(defaults, _, _) := writeOutput fig1 out1 [] postfix1 None None in
  defaults = [snd (splitext out1)] /\
  writeOutput fig2 out2 defaults postfix2 None None
  = ([snd (splitext out1); snd (splitext out2)],
     [write_file fig2 (output_name out2 postfix2) (snd (splitext out1));
      write_file fig2 (output_name out2 postfix2) (snd (splitext out2))],
     Returns).
Proof.
  intros H1 H2 E1 E2 Hdiff.
  rewrite (writeOutput_files fig1 out1 [] postfix1 None None H1 E1);
    [|constructor].
  cbv zeta. simpl inb. cbv iota. split; [reflexivity|].
  rewrite (writeOutput_files fig2 out2 _ postfix2 None None H2 E2);
    [|constructor; [exact E1|constructor]].
  cbv zeta.
  assert (Hinb : inb (snd (splitext out2)) ([] ++ [snd (splitext out1)])
                 = false).
  { simpl. rewrite orb_false_r. apply String.eqb_neq. congruence. }
  rewrite Hinb. simpl app.
  change (map ?f [?a; ?b]) with [f a; f b]. cbv beta.
  rewrite !splitext_startswith by assumption. reflexivity.
Qed.

End Output.

(** ** [writeOutput] on sample names *)

Lemma writeOutput_files_witness :
  writeOutput unit unit tt "plots/test.png" ["pdf"] (Some "mass") None
    (Some tt)
  = (["pdf"; ".png"],
     [write_image unit unit tt "plots/test_mass.pdf";
      write_image unit unit tt "plots/test_mass.png";
      write_index_and_log unit unit "plots" "test_mass" None (Some tt)],
     Returns).
Proof.
  rewrite (writeOutput_files unit unit tt "plots/test.png" ["pdf"]
             (Some "mass") None (Some tt)).
  - reflexivity.
  - vm_compute. discriminate.
  - vm_compute. discriminate.
  - constructor; [discriminate|constructor].
Defined.

Lemma outfile_written_twice_witness :
  exists between rest,
    snd (fst (writeOutput unit unit tt "plots/test.png" ["png"; "html"]
                None None None))
    = write_image unit unit tt "plots/test.png"
      :: between ++ write_image unit unit tt "plots/test.png" :: rest /\
    snd (writeOutput unit unit tt "plots/test.png" ["png"; "html"]
           None None None) = Returns.
Proof.
  apply (outfile_written_twice unit unit tt "plots/test.png" ["html"]
           None None None).
  - vm_compute. discriminate.
  - vm_compute. discriminate.
  - vm_compute. discriminate.
  - constructor; [discriminate|constructor].
  - simpl. intros [H|[]]. discriminate H.
Defined.

Lemma default_extensions_shared_witness :
  writeOutput unit unit tt "plots/other.pdf" [".html"] None None None
  = ([".html"; ".pdf"],
     [write_html unit unit tt "plots/other.html";
      write_image unit unit tt "plots/other.pdf"],
     Returns).
Proof.
  pose proof (default_extensions_shared unit unit tt tt "plots/test.html"
                "plots/other.pdf" None None) as H.
  change (writeOutput unit unit tt "plots/test.html" [] None None None)
    with ([".html"], [write_html unit unit tt "plots/test.html"], Returns)
    in H.
  apply H; vm_compute; discriminate.
Defined.

(** ** The script (lines 489-521) *)


Section Script.
Variable fitresult : Type.
Variable read_impacts_poi :
  fitresult -> bool -> bool -> F64.t -> option string -> bool ->
  list F64.t * list string.
Variable get_pulls_and_constraints :
  string -> list string -> list F64.t * list F64.t * list F64.t.
Variable re_match : string -> string -> bool.
Variable re_search : string -> string -> bool.
Variable channel_info : fitresult -> gmap string channel.
Variable mev_value : string -> result F64.t.

(** The groupings of [utilities.styles], the dictionary of a
    translation file, [combinetf_input.get_fitresult] and
    [combinetf_input.get_poi_names]. *)
Variable groupings : gmap string (list string).
Variable load_translation : string -> gmap string string.
Variable get_fitresult : string -> fitresult.
Variable get_poi_names : fitresult -> option string -> list string.






Hypothesis read_lengths : forall rf group add_total stat poi normalize,
  length (snd (read_impacts_poi rf group add_total stat poi normalize))
  = length (fst (read_impacts_poi rf group add_total stat poi normalize)).
Hypothesis pulls_lengths : forall filename labels,
  length (fst (fst (get_pulls_and_constraints filename labels)))
  = length labels /\
  length (snd (fst (get_pulls_and_constraints filename labels)))
  = length labels /\
  length (snd (get_pulls_and_constraints filename labels)) = length labels.


End Script.



(** ** No missing value in the plotted table *)

Lemma fillna_zero_present (v : cell) : isna (fillna (Num F64.zero) v) = false.
Proof. destruct v as [[s|s| |s m e]|s]; reflexivity. Qed.

Section PlottedTable.
Variable fitresult : Type.
Variable read_impacts_poi :
  fitresult -> bool -> bool -> F64.t -> option string -> bool ->
  list F64.t * list string.
Variable get_pulls_and_constraints :
  string -> list string -> list F64.t * list F64.t * list F64.t.
Variable re_match : string -> string -> bool.
Variable re_search : string -> string -> bool.
Variable translate_label : gmap string string.
Variable channel_info : fitresult -> gmap string channel.
Variable mev_value : string -> result F64.t.

(** X18.  Whatever the readers give, a table that [producePlots] hands
    to the plot has no missing value: no cell of it is NaN (line 418
    turns every one into 0), in particular no sort key and no cell that
    the outer join left open. *)
Theorem plotted_table_no_nan rf args poi group normalize fr_ref grouping df :
  producePlots fitresult read_impacts_poi get_pulls_and_constraints
    re_match re_search translate_label channel_info mev_value
    rf args poi group normalize fr_ref grouping = Ok (Some df) ->
  forall r, In r (rows df) ->
            forall c v, r !! c = Some v -> isna v = false.
Proof.
  intros H r Hr c v Hv. unfold producePlots in H.
  apply bind_Ok_inv in H. destruct H as (scale & _ & H).
  apply bind_Ok_inv in H. destruct H as (built & Hb & H).
  destruct (is_mode args "interactive"); [discriminate|].
  destruct (is_mode args "output"); [|discriminate].
  injection H as <-. apply truncate_rows in Hr.
  unfold build_table in Hb.
  apply bind_Ok_inv in Hb. destruct Hb as (d1 & _ & Hb).
  apply bind_Ok_inv in Hb. destruct Hb as (d2 & _ & Hb).
  apply bind_Ok_inv in Hb. destruct Hb as (d3 & _ & Hb).
  injection Hb as <-. simpl in Hr. apply in_map_iff in Hr.
  destruct Hr as (r0 & <- & _). rewrite lookup_fmap in Hv.
  destruct (r0 !! c) as [v0|]; [|discriminate Hv].
  injection Hv as <-. apply fillna_zero_present.
Qed.
End PlottedTable.

Lemma plotted_table_no_nan_witness :
  Forall (fun r : gmap string cell =>
            forall c v, r !! c = Some v -> isna v = false)
         (rows sample_plotted).
Proof.
  apply List.Forall_forall.
  exact (plotted_table_no_nan sample_file sample_read sample_pulls
           sample_match sample_search ∅ sample_channels sample_mev
           sample_fit (sample_args "absimpact" None) None false false
           (Some sample_reference) None sample_plotted sample_plotted_eq).
Defined.

(** ** The outfile with another extension (lines 475 and 478) *)

(** [outfile.replace(outfile.split(".")[-1], new)] *)
Definition replace_extension (outfile new : string) : string :=
  str_replace outfile (List.last (str_split "." outfile) "") new.

Lemma rfind_cons_absent (c a : ascii) (s : string) :
  (rfind c (String a s) < 0)%Z -> a <> c /\ (rfind c s < 0)%Z.
Proof.
  simpl. destruct (0 <=? rfind c s)%Z eqn:E.
  - apply Z.leb_le in E. lia.
  - apply Z.leb_gt in E. destruct (Ascii.eqb_spec a c); [lia|tauto].
Qed.

(** Before a character that [old] does not have, [old] is looked for in
    what comes before only. *)
Lemma prefix_before_char (c : ascii) (old a b : string) :
  (rfind c old < 0)%Z ->
  String.prefix old (a ++ String c b) = String.prefix old a.
Proof.
  revert a. induction old as [|o old IH]; intros a H.
  - rewrite !prefix_nil. reflexivity.
  - apply rfind_cons_absent in H. destruct H as [Ho H].
    destruct a as [|x a].
    + change ("" ++ String c b) with (String c b). rewrite prefix_cons.
      destruct (ascii_dec o c); [contradiction|reflexivity].
    + rewrite append_cons, !prefix_cons, (IH a H). reflexivity.
Qed.

Lemma prefix_length (p s : string) :
  String.prefix p s = true -> (String.length p <= String.length s)%nat.
Proof.
  revert s. induction p as [|a p IH]; intros s H; [simpl; lia|].
  destruct s as [|b s]; [discriminate H|].
  rewrite prefix_cons in H. destruct (ascii_dec a b); [|discriminate H].
  simpl. apply IH in H. lia.
Qed.

Lemma prefix_refl (s : string) : String.prefix s s = true.
Proof.
  induction s as [|a s IH]; [reflexivity|]. rewrite prefix_cons.
  destruct (ascii_dec a a); [exact IH|congruence].
Qed.

Lemma replace_from_cons (old new : string) (skip : nat) (c : ascii)
    (s : string) :
  replace_from old new skip (String c s)
  = match skip with
    | S k => replace_from old new k s
    | O => if String.prefix old (String c s)
           then new ++ replace_from old new (String.length old - 1) s
           else String c (replace_from old new 0 s)
    end.
Proof. reflexivity. Qed.

(** A replacement does not reach across a character that [old] does not
    have. *)
Lemma replace_from_before_char (c : ascii) (old new a b : string)
    (skip : nat) :
  old <> "" -> (rfind c old < 0)%Z -> (skip <= String.length a)%nat ->
  replace_from old new skip (a ++ String c b)
  = replace_from old new skip a ++ String c (replace_from old new 0 b).
Proof.
  intros Hne Hc. revert skip. induction a as [|x a IH]; intros skip Hs.
  - simpl in Hs. replace skip with 0%nat by lia.
    change ("" ++ String c b) with (String c b).
    rewrite replace_from_cons.
    destruct old as [|o old]; [congruence|].
    apply rfind_cons_absent in Hc. destruct Hc as [Ho _].
    rewrite prefix_cons. destruct (ascii_dec o c); [contradiction|].
    reflexivity.
  - rewrite append_cons, !replace_from_cons. destruct skip as [|k].
    + rewrite <- append_cons, (prefix_before_char c old (String x a) b Hc).
      destruct (String.prefix old (String x a)) eqn:E.
      * apply prefix_length in E. simpl in E.
        rewrite IH by lia. rewrite append_assoc. reflexivity.
      * rewrite IH by lia. reflexivity.
    + simpl in Hs. apply IH. lia.
Qed.

Lemma replace_from_skip_all (old new s : string) :
  replace_from old new (String.length s) s = "".
Proof. induction s as [|c s IH]; [reflexivity|exact IH]. Qed.

Lemma str_replace_nonempty (s old new : string) :
  old <> "" -> str_replace s old new = replace_from old new 0 s.
Proof. destruct old; [congruence|reflexivity]. Qed.

Lemma str_replace_self (old new : string) :
  old <> "" -> str_replace old old new = new.
Proof.
  intros H. unfold str_replace. destruct old as [|c old]; [congruence|].
  rewrite replace_from_cons, prefix_refl.
  change (String.length (String c old) - 1)%nat
    with (String.length old - 0)%nat.
  rewrite Nat.sub_0_r, replace_from_skip_all. apply append_nil_r.
Qed.

Lemma str_split_app (c : ascii) (a b : string) :
  str_split c (a ++ String c b) = (str_split c a ++ str_split c b)%list.
Proof.
  induction a as [|x a IH].
  - change ("" ++ String c b) with (String c b).
    rewrite str_split_cons, Ascii.eqb_refl. reflexivity.
  - rewrite append_cons, !str_split_cons, IH.
    destruct (Ascii.eqb x c); [reflexivity|].
    destruct (str_split c a) as [|h tl] eqn:E;
      [exfalso; exact (str_split_nonempty c a E)|reflexivity].
Qed.

Lemma last_app_singleton {A} (l : list A) (x d : A) :
  List.last (l ++ [x])%list d = x.
Proof.
  induction l as [|y l IH]; [reflexivity|].
  simpl. destruct (l ++ [x])%list eqn:E; [destruct l; discriminate|exact IH].
Qed.

Lemma last_field_app (c : ascii) (a e : string) :
  (rfind c e < 0)%Z ->
  List.last (str_split c (a ++ String c e)) "" = e.
Proof.
  intros H. rewrite str_split_app, (str_split_absent c e H).
  apply last_app_singleton.
Qed.

(** X19.  Putting another extension on the outfile replaces every
    occurrence of the old extension's text in the path, in the file name
    and in the directory names as well as at the end: of
    [plots_png/test.png] with [html] it makes [plots_html/test.html]. *)
Theorem replace_extension_everywhere (dir stem e new : string) :
  e <> "" -> (rfind "." e < 0)%Z -> (rfind "/" e < 0)%Z ->
  replace_extension (dir ++ "/" ++ stem ++ "." ++ e) new
  = str_replace dir e new ++ "/" ++ str_replace stem e new ++ "." ++ new.
Proof.
  intros Hne Hdot Hsep. unfold replace_extension.
  assert (Hlast : List.last (str_split "." (dir ++ "/" ++ stem ++ "." ++ e)) ""
                  = e).
  { rewrite <- (append_assoc dir "/" (stem ++ "." ++ e)).
    rewrite <- (append_assoc (dir ++ "/") stem ("." ++ e)).
    apply last_field_app. exact Hdot. }
  rewrite Hlast, !(str_replace_nonempty _ e new Hne).
  change (dir ++ "/" ++ stem ++ "." ++ e)
    with (dir ++ String "/" (stem ++ String "." e)).
  rewrite (replace_from_before_char "/" e new dir _ 0 Hne Hsep)
    by (simpl; lia).
  rewrite (replace_from_before_char "." e new stem _ 0 Hne Hdot)
    by (simpl; lia).
  rewrite <- (str_replace_nonempty e e new Hne), (str_replace_self e new Hne).
  reflexivity.
Qed.

Lemma replace_extension_everywhere_witness :
  replace_extension "plots_png/test.png" "html" = "plots_html/test.html".
Proof.
  apply (replace_extension_everywhere "plots_png" "test" "png" "html").
  - discriminate.
  - reflexivity.
  - reflexivity.
Defined.
